(** * parser.c: matching a text against a grammar tree

    A shallow embedding of [src/parser.c] (augeas) and the properties of
    its cursor, literal matcher, lookahead predicate, quantifier driver,
    match dispatcher and entry point.

    Conventions of the embedding.
    - C [int]s are [Z]. The line number, the one [int] that the parser
      increments, is a 32-bit counter: its increment wraps around.
    - [state->text] is a (non-null) C string, held as a [string]; the
      pointer [state->pos] is held as its offset [pos - text].
    - What the program writes to its streams is recorded, newest first,
      in the ghost field [out] of the state.
    - The recursion of [parse_match] and the two [while] loops of
      [parse_quant_match] need not terminate; they are bounded by fuel. *)

From Stdlib Require Import ZArith List String Ascii Bool Lia.
Import ListNotations.
Local Open Scope string_scope.
Local Open Scope list_scope.
Local Open Scope Z_scope.

Set Implicit Arguments.

(** ** C strings *)

Definition NUL : ascii := Ascii.zero.
Definition newline : ascii := "010"%char.

(** [strlen]: the number of characters before the first NUL. *)
Fixpoint strlen (s : string) : Z :=
  match s with
  | EmptyString => 0
  | String c s' => if Ascii.eqb c NUL then 0 else 1 + strlen s'
  end.

(** [char_at s i] is [s[i]]: the character at offset [i], the terminating
    NUL at the end of the buffer (reading further is undefined in C and is
    NUL here). *)
Definition char_at (s : string) (i : Z) : ascii :=
  if i <? 0 then NUL
  else match String.get (Z.to_nat i) s with
       | Some c => c
       | None => NUL
       end.

(** The number of newline characters of a string. *)
Definition newlines (s : string) : Z :=
  Z.of_nat (count_occ ascii_dec (list_ascii_of_string s) newline).

(** ** The [int] of the line number *)

Definition INT_MAX : Z := 2147483647.
Definition INT_MIN : Z := -2147483648.

(** The value that a 32-bit [int] holds after a computation whose exact
    result is [z]. *)
Definition wrap_int (z : Z) : Z := (z - INT_MIN) mod 2 ^ 32 + INT_MIN.

(** ** Results of computations that may not return *)

Inductive fault : Type :=
| NullRule          (* a rule pointer that designates no rule *)
| UnresolvedField   (* find_field found no field *)
| WrongMember.      (* a member of the union read under another tag *)

Inductive result (A : Type) : Type :=
| Done (a : A)
| Abort (f : fault)
| OutOfFuel.
Arguments Abort {A} f.
Arguments OutOfFuel {A}.

Definition bind {A B : Type} (r : result A) (k : A -> result B) : result B :=
  match r with
  | Done a => k a
  | Abort f => Abort f
  | OutOfFuel => OutOfFuel
  end.

Notation "x <- e ;; k" := (bind e (fun x => k))
  (at level 61, e at next level, right associativity).

(** ** Constants of ast.h *)

(** Modelled from the spec: the [parse_flags] constants of ast.h, which is
    not part of the sources at hand: "a set of independently-togglable
    trace categories: trace-advance, trace-match-attempt, trace-token,
    trace-rule-enter". *)
Definition PF_NONE : Z := 0.
Definition PF_ADVANCE : Z := 1.
Definition PF_MATCH : Z := 2.
Definition PF_TOKEN : Z := 4.
Definition PF_RULE : Z := 8.

Inductive quant_t : Type := Q_ONCE | Q_MAYBE | Q_PLUS | Q_STAR.

Inductive FILE : Type := stdout | stderr | stream (fd : nat).

(** What [pcre_exec] hands back: its return code and the first pair of
    the output vector, [matches[0]] and [matches[1]] (whatever the vector
    held when nothing matched). *)
Record pcre_result : Type := { rc : Z; m0 : Z; m1 : Z }.

Section Parser.

(** The compiled patterns and the regular expression engine are external:
    [pcre_exec re subject length offset] stands for
    [pcre_exec(re, NULL, subject, length, offset, PCRE_ANCHORED, matches,
    NMATCHES)]. *)
Variable pcre : Type.
Variable pcre_exec : pcre -> string -> Z -> Z -> pcre_result.

(** ** The grammar tree (ast.h) *)

Record struct_literal : Type := { re : pcre }.

Record struct_abbrev : Type := { abbrev_literal : struct_literal }.

(** A [struct rule *] is the index of the rule in the grammar's rule
    list; the head of the list, [grammar->rules], is index 0. *)
Definition rule_ptr : Type := nat.

(** [struct match]: the quantifier, the first-set and the union selected
    by [type]. *)
Inductive struct_match : Type :=
  Match (quant : quant_t) (first : list struct_literal) (type : match_type)
with match_type : Type :=
| LITERAL (literal : struct_literal)
| ANY (literal : struct_literal)
| FIELD (owner : rule_ptr) (field : Z)
| ALTERNATIVE (matches : list struct_match)
| SEQUENCE (matches : list struct_match)
| RULE_REF (rule : rule_ptr)
| ABBREV_REF (abbrev : struct_abbrev).

Definition quant (m : struct_match) : quant_t :=
  let 'Match q _ _ := m in q.
Definition first (m : struct_match) : list struct_literal :=
  let 'Match _ f _ := m in f.
Definition type (m : struct_match) : match_type :=
  let 'Match _ _ t := m in t.

(** [match->literal], for the two kinds that carry one. *)
Definition literal (m : struct_match) : option struct_literal :=
  match type m with
  | LITERAL l | ANY l => Some l
  | _ => None
  end.

(** [match->matches]: the list threaded through [next]. *)
Definition matches (m : struct_match) : list struct_match :=
  match type m with
  | ALTERNATIVE ms | SEQUENCE ms => ms
  | _ => []
  end.

Record struct_rule : Type := { name : string; rule_matches : struct_match }.

Record struct_grammar : Type := { rules : list struct_rule }.

(** [find_field] is defined elsewhere in the repository; it is a
    parameter here, [None] standing for a field that does not resolve. *)
Variable find_field : rule_ptr -> Z -> option struct_match.

(** ** The cursor *)

Inductive output : Type :=
| Flags (fl : Z)                                          (* printf("flags: %x\n") *)
| TraceA (f : FILE) (cnt : Z) (before after : string)     (* the "A" line *)
| TraceM (f : FILE) (offset : Z) (l : struct_literal) (a b : Z)  (* the "M" line *)
| TraceT (f : FILE) (msg tok : string)                    (* the "T" line *)
| TraceR (f : FILE) (rname : string)                      (* the "R" line *)
| GrammarError (fname : string) (line : Z) (format : string) (args : list Z)
| ParseFailed.                                            (* fprintf(stderr, "Parse failed\n") *)

Record state : Type := {
  filename : string;
  lineno : Z;
  text : string;
  pos : Z;
  applied : Z;
  flags : Z;
  log : FILE;
  out : list output
}.

Definition set_lineno (n : Z) (st : state) : state :=
  {| filename := filename st; lineno := n; text := text st; pos := pos st;
     applied := applied st; flags := flags st; log := log st; out := out st |}.

Definition set_pos (p : Z) (st : state) : state :=
  {| filename := filename st; lineno := lineno st; text := text st; pos := p;
     applied := applied st; flags := flags st; log := log st; out := out st |}.

Definition set_applied (a : Z) (st : state) : state :=
  {| filename := filename st; lineno := lineno st; text := text st; pos := pos st;
     applied := a; flags := flags st; log := log st; out := out st |}.

Definition emit (o : output) (st : state) : state :=
  {| filename := filename st; lineno := lineno st; text := text st; pos := pos st;
     applied := applied st; flags := flags st; log := log st; out := o :: out st |}.

(** [state->flags & f] *)
Definition flag_set (st : state) (f : Z) : bool :=
  negb (Z.land (flags st) f =? 0).

(** Modelled from the spec: [grammar_error] of the grammar subsystem, which
    is not part of the sources at hand: "a non-fatal diagnostic tagged with
    filename and current line ... The engine does not abort on these". *)
Definition grammar_error (fname : string) (line : Z) (format : string)
    (args : list Z) (st : state) : state :=
  emit (GrammarError fname line format args) st.

Definition parse_error (st : state) (format : string) (args : list Z) : state :=
  grammar_error (filename st) (lineno st) format args st.

(** The body of the [for] loop of [advance], from index [i], [n] rounds.
    [state->pos] is [text + pos] and never null, so the [internal_error]
    branch is dead. *)
Fixpoint advance_loop (n : nat) (i : Z) (st : state) : state :=
  match n with
  | O => st
  | S n' =>
      let st' :=
        if Ascii.eqb (char_at (text st) (pos st + i)) newline
        then set_lineno (wrap_int (lineno st + 1)) st   (* state->lineno++ *)
        else st in
      advance_loop n' (i + 1) st'
  end.

Definition window : Z := 28.

Definition advance (st : state) (cnt : Z) : state :=
  if cnt =? 0 then st
  else
    let st1 := advance_loop (Z.to_nat cnt) 0 st in
    let st2 := set_pos (pos st1 + cnt) st1 in
    if flag_set st2 PF_ADVANCE then
      let before := if window <? pos st2 then window else pos st2 in
      emit (TraceA (log st2) cnt
              (substring (Z.to_nat (pos st2 - before)) (Z.to_nat before) (text st2))
              (substring (Z.to_nat (pos st2)) 20 (text st2))) st2
    else st2.

Definition lex (l : struct_literal) (st : state) : Z * state :=
  let offset := pos st in
  let r := pcre_exec (re l) (text st) (strlen (text st)) offset in
  let st1 :=
    if flag_set st PF_MATCH
    then emit (TraceM (log st) offset l (m0 r) (m1 r)) st
    else st in
  if 1 <=? rc r then
    let st2 :=
      if negb (m0 r =? offset)
      then parse_error st1 "Skipped %d characters" [m0 r - offset]
      else st1 in
    (m1 r - m0 r, st2)
  else (-1, st1).

Definition emit_token (msg : string) (st : state) (len : Z) : state :=
  let t := substring (Z.to_nat (pos st)) (Z.to_nat len) (text st) in
  if flag_set st PF_TOKEN then emit (TraceT (log st) msg t) st else st.

Definition parse_literal (l : struct_literal) (st : state) : state :=
  let '(len, st1) := lex l st in
  if len <? 0 then set_applied 0 st1
  else
    let st2 := emit_token "literal" st1 len in
    let st3 := advance st2 len in
    set_applied 1 st3.

Definition parse_match_func : Type := struct_match -> state -> result state.

Definition parse_any (m : struct_match) (st : state) : result state :=
  match literal m with
  | Some l => Done (parse_literal l st)
  | None => Abort WrongMember
  end.

(** [list_for_each(f, match->first)] of [applies]. *)
Fixpoint applies_loop (fs : list struct_literal) (st : state) : Z * state :=
  match fs with
  | [] => (0, st)
  | f :: fs' =>
      let '(len, st1) := lex f st in
      if 0 <? len then (1, st1) else applies_loop fs' st1
  end.

Definition applies (m : struct_match) (st : state) : Z * state :=
  applies_loop (first m) st.

(** [list_for_each(p, match->matches)] of [parse_alternative]. *)
Fixpoint alternative_loop (parse_match : parse_match_func)
    (ps : list struct_match) (st : state) : result state :=
  match ps with
  | [] => Done st
  | p :: ps' =>
      let '(a, st1) := applies p st in
      if negb (a =? 0) then
        st2 <- parse_match p st1 ;;
        (* FIXME: Error if ! state->applied *)
        Done (set_applied 1 st2)
      else alternative_loop parse_match ps' st1
  end.

Definition parse_alternative (parse_match : parse_match_func)
    (m : struct_match) (st : state) : result state :=
  alternative_loop parse_match (matches m) (set_applied 0 st).

(** [list_for_each(p, match->matches)] of [parse_sequence]. *)
Fixpoint sequence_loop (parse_match : parse_match_func)
    (ps : list struct_match) (st : state) : result state :=
  match ps with
  | [] => Done st
  | p :: ps' =>
      st1 <- parse_match p st ;;
      if applied st1 =? 0 then Done st1   (* error *)
      else sequence_loop parse_match ps' st1
  end.

Definition parse_sequence (parse_match : parse_match_func)
    (m : struct_match) (st : state) : result state :=
  sequence_loop parse_match (matches m) (set_applied 1 st).

Definition parse_field (parse_match : parse_match_func)
    (m : struct_match) (st : state) : result state :=
  match type m with
  | FIELD owner field =>
      match find_field owner field with
      | Some f => parse_match f st
      | None => Abort UnresolvedField
      end
  | _ => Abort WrongMember
  end.

Definition parse_rule (parse_match : parse_match_func) (g : struct_grammar)
    (r : rule_ptr) (st : state) : result state :=
  match nth_error (rules g) r with
  | None => Abort NullRule
  | Some rl =>
      let st1 :=
        if flag_set st PF_RULE then emit (TraceR (log st) (name rl)) st else st in
      parse_match (rule_matches rl) st1
  end.

Definition parse_rule_ref (parse_match : parse_match_func) (g : struct_grammar)
    (m : struct_match) (st : state) : result state :=
  match type m with
  | RULE_REF r => parse_rule parse_match g r st
  | _ => Abort WrongMember
  end.

(** [while (state->applied) func(match, state);] *)
Fixpoint while_applied (fuel : nat) (func : parse_match_func)
    (m : struct_match) (st : state) : result state :=
  if applied st =? 0 then Done st
  else match fuel with
       | O => OutOfFuel
       | S n => st1 <- func m st ;; while_applied n func m st1
       end.

(** [while (applies(match, state)) func(match, state);] *)
Fixpoint while_applies (fuel : nat) (func : parse_match_func)
    (m : struct_match) (st : state) : result state :=
  let '(a, st1) := applies m st in
  if a =? 0 then Done st1
  else match fuel with
       | O => OutOfFuel
       | S n => st2 <- func m st1 ;; while_applies n func m st2
       end.

(** The [default] branch of the [switch] is out of reach: [quant_t] has
    the four tags only. *)
Definition parse_quant_match (fuel : nat) (func : parse_match_func)
    (m : struct_match) (st : state) : result state :=
  match quant m with
  | Q_ONCE => func m st
  | Q_MAYBE =>
      let '(a, st1) := applies m st in
      st2 <- (if negb (a =? 0) then func m st1 else Done st1) ;;
      Done (set_applied 1 st2)
  | Q_PLUS =>
      st1 <- func m st ;;
      let st2 :=
        if applied st1 =? 0
        then grammar_error (filename st1) (lineno st1) "match did not apply" [] st1
        else st1 in
      st3 <- while_applied fuel func m st2 ;;
      Done (set_applied 1 st3)
  | Q_STAR =>
      st1 <- while_applies fuel func m st ;;
      Done (set_applied 1 st1)
  end.

(** The [default] branch of the [switch] is out of reach here as well. *)
Fixpoint parse_match (fuel : nat) (g : struct_grammar) (m : struct_match)
    (st : state) : result state :=
  match fuel with
  | O => OutOfFuel
  | S n =>
      match type m with
      | LITERAL l => Done (parse_literal l st)
      | ANY _ => parse_any m st
      | FIELD _ _ => parse_field (parse_match n g) m st
      | ALTERNATIVE _ =>
          parse_quant_match n (parse_alternative (parse_match n g)) m st
      | SEQUENCE _ =>
          parse_quant_match n (parse_sequence (parse_match n g)) m st
      | RULE_REF _ =>
          parse_quant_match n (parse_rule_ref (parse_match n g) g) m st
      | ABBREV_REF a => Done (parse_literal (abbrev_literal a) st)
      end
  end.

(** The [struct state] that [parse] fills in before it prints the flags. *)
Definition init_state (fname txt : string) (lg : option FILE) (fl : Z) : state :=
  match lg with
  | Some f =>
      if negb (fl =? PF_NONE)
      then {| filename := fname; lineno := 1; text := txt; pos := 0;
              applied := 0; flags := fl; log := f; out := [] |}
      else {| filename := fname; lineno := 1; text := txt; pos := 0;
              applied := 0; flags := PF_NONE; log := stdout; out := [] |}
  | None => {| filename := fname; lineno := 1; text := txt; pos := 0;
               applied := 0; flags := PF_NONE; log := stdout; out := [] |}
  end.

(** The cursor on which the root rule is invoked. *)
Definition start_state (fname txt : string) (lg : option FILE) (fl : Z) : state :=
  let st := init_state fname txt lg fl in
  emit (Flags (flags st)) st.

(** [parse_rule(grammar->rules, &state)] *)
Definition parse_root (fuel : nat) (g : struct_grammar) (st : state)
    : result state :=
  parse_rule (parse_match fuel g) g O st.

Definition parse (fuel : nat) (g : struct_grammar) (fname txt : string)
    (lg : option FILE) (fl : Z) : result state :=
  st <- parse_root fuel g (start_state fname txt lg fl) ;;
  if (applied st =? 0) || negb (Ascii.eqb (char_at (text st) (pos st)) NUL)
  then Done (emit ParseFailed st)
  else Done st.

(** ** Vocabulary of the properties *)

(** Two states that differ at most in what has been written out. *)
Definition same_cursor (s s' : state) : Prop :=
  filename s' = filename s /\ lineno s' = lineno s /\ text s' = text s /\
  pos s' = pos s /\ applied s' = applied s /\ flags s' = flags s /\
  log s' = log s.

(** The invariant of a parse of [txt]: the text is [txt], the cursor lies
    inside it and no failure of the parse has been reported. *)
Definition good (txt : string) (st : state) : Prop :=
  text st = txt /\ 0 <= pos st <= strlen txt /\ ~ In ParseFailed (out st).

Definition keeps_good (txt : string) (pm : parse_match_func) : Prop :=
  forall p s s', good txt s -> pm p s = Done s' -> good txt s'.

(** [pm'] returns whatever [pm] returns. *)
Definition refines (pm pm' : parse_match_func) : Prop :=
  forall m st st', pm m st = Done st' -> pm' m st = Done st'.

(** The state after [lex] has been tried on each literal of [ls] in turn. *)
Definition lex_all (ls : list struct_literal) (st : state) : state :=
  fold_left (fun s l => snd (lex l s)) ls st.

(** The state after [applies] has been asked about each node of [ps] in turn. *)
Definition applies_all (ps : list struct_match) (st : state) : state :=
  fold_left (fun s p => snd (applies p s)) ps st.

(** [repeats func m n s s']: from [s], whose flag is set, [n] further calls
    of [func] lead to [s'], the first state whose flag is clear. *)
Inductive repeats (func : parse_match_func) (m : struct_match)
    : nat -> state -> state -> Prop :=
| repeats_stop s :
    applied s = 0 -> repeats func m O s s
| repeats_again n s s1 s' :
    applied s <> 0 -> func m s = Done s1 -> repeats func m n s1 s' ->
    repeats func m (S n) s s'.

(** [lookahead_repeats func m n s s']: from [s], [n] calls of [func], each
    after a lookahead that answered yes, lead to a state where the lookahead
    answers no and leaves [s']. *)
Inductive lookahead_repeats (func : parse_match_func) (m : struct_match)
    : nat -> state -> state -> Prop :=
| lookahead_stop s :
    fst (applies m s) = 0 -> lookahead_repeats func m O s (snd (applies m s))
| lookahead_again n s s2 s' :
    fst (applies m s) <> 0 -> func m (snd (applies m s)) = Done s2 ->
    lookahead_repeats func m n s2 s' ->
    lookahead_repeats func m (S n) s s'.

(** What [parse] reports: it returns, having printed "Parse failed" or not. *)
Definition reports_failure (r : result state) : Prop :=
  exists st, r = Done st /\ In ParseFailed (out st).

Definition reports_success (r : result state) : Prop :=
  exists st, r = Done st /\ ~ In ParseFailed (out st).

(** The lookahead predicate as the specification words it: true exactly
    when some literal of the first-set matches at the cursor, a match being
    an answer of [lex] that is a length and not the negative no-match
    value, as [parse_literal] takes it. *)
Definition applies_as_specified (m : struct_match) (st : state) : Prop :=
  fst (applies m st) = 1 <->
  exists l, In l (first m) /\ 0 <= fst (lex l st).

(** *** Vocabulary of the properties of whole runs *)

(** [s'] lies ahead of [s] in the same parse: the file name, the text, the
    flags and the log are the same and the offset has not gone back. *)
Definition forward (s s' : state) : Prop :=
  filename s' = filename s /\ text s' = text s /\ flags s' = flags s /\
  log s' = log s /\ pos s <= pos s'.

(** The characters of the text between the cursors of [s] and [s']. *)
Definition consumed (s s' : state) : string :=
  substring (Z.to_nat (pos s)) (Z.to_nat (pos s' - pos s)) (text s).

(** From [s] to [s'] the line counter has counted the newlines consumed. *)
Definition line_tracked (s s' : state) : Prop :=
  0 <= pos s -> INT_MIN <= lineno s <= INT_MAX ->
  text s' = text s /\ pos s <= pos s' /\
  lineno s' = wrap_int (lineno s + newlines (consumed s s')).

(** From [s] to [s'] the cursor has stayed inside the text. *)
Definition stays_inside (s s' : state) : Prop :=
  0 <= pos s <= strlen (text s) ->
  text s' = text s /\ 0 <= pos s' <= strlen (text s).

(** What was written from [s] to [s'] was added on top of what [s] had
    written, and each item of it satisfies [P]. *)
Definition wrote (P : output -> Prop) (s s' : state) : Prop :=
  exists evs, out s' = evs ++ out s /\ Forall P evs.

Definition is_diagnostic (o : output) : bool :=
  match o with
  | GrammarError _ _ _ _ => true
  | _ => false
  end.

Definition is_skipped (o : output) : bool :=
  match o with
  | GrammarError _ _ format _ => String.eqb format "Skipped %d characters"
  | _ => false
  end.

(** With the flags clear at [s], they are clear at [s'] and nothing but
    diagnostics was written in between. *)
Definition untraced (s s' : state) : Prop :=
  flags s = PF_NONE ->
  flags s' = PF_NONE /\ wrote (fun o => is_diagnostic o = true) s s'.

(** Two states of two runs that are at the same point of the same parse,
    whatever their flags, their log and what they have written. *)
Definition same_run (s t : state) : Prop :=
  filename t = filename s /\ lineno t = lineno s /\ text t = text s /\
  pos t = pos s /\ applied t = applied s.

Definition result_sim (r r' : result state) : Prop :=
  match r, r' with
  | Done s, Done t => same_run s t
  | Abort f, Abort f' => f = f'
  | OutOfFuel, OutOfFuel => True
  | _, _ => False
  end.

(** [all_apply pm ps s s']: dispatched in turn from [s], every node of
    [ps] returns with the applied flag set, the last one in [s']. *)
Inductive all_apply (pm : parse_match_func)
    : list struct_match -> state -> state -> Prop :=
| all_apply_nil s : all_apply pm [] s s
| all_apply_cons p ps s s1 s' :
    pm p s = Done s1 -> applied s1 <> 0 -> all_apply pm ps s1 s' ->
    all_apply pm (p :: ps) s s'.

End Parser.

Arguments Match {pcre} quant first type.
Arguments LITERAL {pcre} literal.
Arguments ANY {pcre} literal.
Arguments FIELD {pcre} owner field.
Arguments ALTERNATIVE {pcre} matches.
Arguments SEQUENCE {pcre} matches.
Arguments RULE_REF {pcre} rule.
Arguments ABBREV_REF {pcre} abbrev.
Arguments ParseFailed {pcre}.
Arguments Flags {pcre} fl.
Arguments GrammarError {pcre} fname line format args.
Arguments init_state {pcre} fname txt lg fl.
Arguments start_state {pcre} fname txt lg fl.

(** ** A regular expression engine for patterns without operators

    The patterns of the examples are plain texts; on them an anchored
    [pcre_exec] succeeds when the pattern is a prefix of the subject at the
    offset, with code 1 and the bounds of the occurrence, and fails with
    PCRE_ERROR_NOMATCH (-1) otherwise. *)

Definition plain_exec (p : string) (subject : string) (length : Z) (offset : Z)
    : pcre_result :=
  if (0 <=? offset) && (offset + Z.of_nat (String.length p) <=? length)
     && String.eqb (substring (Z.to_nat offset) (String.length p) subject) p
  then {| rc := 1; m0 := offset; m1 := offset + Z.of_nat (String.length p) |}
  else {| rc := -1; m0 := 0; m1 := 0 |}.

Definition lit (p : string) : struct_literal string := {| re := p |}.

Definition no_fields (_ : rule_ptr) (_ : Z) : option (struct_match string) := None.

Definition nl : string := String newline EmptyString.

(** ** Example grammars *)

Definition once (t : match_type string) : struct_match string := Match Q_ONCE [] t.

(** The text "ab\ncd" and a rule that is the sequence of "ab\n" and "cd". *)
Definition two_lines : string := ("ab" ++ nl ++ "cd")%string.

Definition two_lines_grammar : struct_grammar string :=
  {| rules :=
       [ {| name := "lines";
            rule_matches :=
              once (SEQUENCE [once (LITERAL (lit ("ab" ++ nl)%string));
                              once (LITERAL (lit "cd"))]) |} ] |}.

(** A node for "a", starred, as a node that carries the literal and as a
    Sequence of one literal; the first-set of both is the literal itself. *)
Definition star_any_a : struct_match string :=
  Match Q_STAR [lit "a"] (ANY (lit "a")).

Definition star_seq_a : struct_match string :=
  Match Q_STAR [lit "a"] (SEQUENCE [once (LITERAL (lit "a"))]).

Definition plus_seq_a : struct_match string :=
  Match Q_PLUS [lit "a"] (SEQUENCE [once (LITERAL (lit "a"))]).

Definition no_rules : struct_grammar string := {| rules := [] |}.

(** The fresh cursor of a parse of [txt] without tracing. *)
Definition start (txt : string) : state string :=
  start_state "input" txt None PF_NONE.

(** The dispatcher of the examples, which have no rule and no field. *)
Definition dispatch (fuel : nat) : parse_match_func string :=
  parse_match plain_exec no_fields fuel no_rules.

(** Three branches; the first-set of the first is "x", that of the two
    others is "a". *)
Definition branch_xy : struct_match string :=
  Match Q_ONCE [lit "x"]
    (SEQUENCE [once (LITERAL (lit "x")); once (LITERAL (lit "y"))]).

Definition branch_ax : struct_match string :=
  Match Q_ONCE [lit "a"]
    (SEQUENCE [once (LITERAL (lit "a")); once (LITERAL (lit "x"))]).

Definition branch_ab : struct_match string :=
  Match Q_ONCE [lit "a"]
    (SEQUENCE [once (LITERAL (lit "a")); once (LITERAL (lit "b"))]).

Definition three_branches : list (struct_match string) :=
  [branch_xy; branch_ax; branch_ab].

(** One or more "a", then "b". *)
Definition plus_a_then_b : struct_match string :=
  once (SEQUENCE [plus_seq_a; once (LITERAL (lit "b"))]).

(** A node whose first-set holds the empty pattern only. *)
Definition empty_first : struct_match string :=
  Match Q_ONCE [lit ""] (SEQUENCE [once (LITERAL (lit ""))]).

(** A node whose first-set is "x", "a", "ab". *)
Definition first_x_a_ab : struct_match string :=
  Match Q_ONCE [lit "x"; lit "a"; lit "ab"] (ALTERNATIVE []).

(** An optional "a". *)
Definition maybe_seq_a : struct_match string :=
  Match Q_MAYBE [lit "a"] (SEQUENCE [once (LITERAL (lit "a"))]).

(** One or more, and zero or more, of nothing. *)
Definition plus_empty : struct_match string := Match Q_PLUS [] (SEQUENCE []).

Definition star_idle : struct_match string :=
  Match Q_STAR [lit "a"] (SEQUENCE []).

(** A rule that is a reference to itself. *)
Definition self_reference : struct_match string := Match Q_ONCE [] (RULE_REF O).

Definition loop_grammar : struct_grammar string :=
  {| rules := [ {| name := "loop"; rule_matches := self_reference |} ] |}.

(** The fresh cursor of a parse of [txt] with every flag set and the
    standard error stream as log. *)
Definition traced (txt : string) : state string :=
  start_state "input" txt (Some stderr) 15.

(** ** Laws of the parser *)

Unset Implicit Arguments.

Section Laws.

Variable pcre : Type.
Variable pcre_exec : pcre -> string -> Z -> Z -> pcre_result.
Variable find_field : rule_ptr -> Z -> option (struct_match pcre).

Implicit Types (st s : state pcre) (m p : struct_match pcre)
  (l : struct_literal pcre) (g : struct_grammar pcre).

Arguments lex : simpl never.
Arguments advance : simpl never.
Arguments parse_literal : simpl never.

Ltac case_flags :=
  repeat match goal with
         | |- context [if ?b then _ else _] => destruct b eqn:?
         end.

Lemma same_cursor_refl st : same_cursor st st.
Proof. repeat split. Qed.

Lemma same_cursor_trans s1 s2 s3 :
  same_cursor s1 s2 -> same_cursor s2 s3 -> same_cursor s1 s3.
Proof.
  unfold same_cursor.
  intros (? & ? & ? & ? & ? & ? & ?) (? & ? & ? & ? & ? & ? & ?).
  repeat split; congruence.
Qed.

Lemma lex_same_cursor l st : same_cursor st (snd (lex pcre_exec l st)).
Proof.
  unfold lex, parse_error, grammar_error.
  case_flags; simpl; repeat split.
Qed.

(** The answer of [lex] depends on the text and the offset only. *)
Lemma lex_value_same_place l s s' :
  text s' = text s -> pos s' = pos s ->
  fst (lex pcre_exec l s') = fst (lex pcre_exec l s).
Proof.
  intros Ht Hp.
  unfold lex. rewrite Ht, Hp.
  destruct (1 <=? _); reflexivity.
Qed.

Lemma lex_value_same_cursor l s s' :
  same_cursor s s' -> fst (lex pcre_exec l s') = fst (lex pcre_exec l s).
Proof.
  intros (_ & _ & Ht & Hp & _). now apply lex_value_same_place.
Qed.

Lemma applies_loop_same_cursor fs st :
  same_cursor st (snd (applies_loop pcre_exec fs st)).
Proof.
  revert st; induction fs as [|f fs IH]; intros st; simpl.
  - apply same_cursor_refl.
  - pose proof (lex_same_cursor f st) as Hl.
    destruct (lex pcre_exec f st) as [len st1]; simpl in Hl.
    destruct (0 <? len); simpl.
    + exact Hl.
    + eapply same_cursor_trans; [exact Hl | apply IH].
Qed.

(** C6: for every node and every state, the lookahead predicate leaves the
    cursor as it found it: the offset, the line number and every other
    field of the state but the record of what was written out are the
    same after [applies] as before. *)
Theorem applies_preserves_cursor m st :
  pos (snd (applies pcre_exec m st)) = pos st /\
  lineno (snd (applies pcre_exec m st)) = lineno st /\
  same_cursor st (snd (applies pcre_exec m st)).
Proof.
  pose proof (applies_loop_same_cursor (first m) st) as H.
  unfold applies. split; [|split]; try exact H; apply H.
Qed.

(** *** The lookahead predicate *)

Lemma applies_loop_found pre l post st :
  (forall l', In l' pre -> fst (lex pcre_exec l' st) <= 0) ->
  0 < fst (lex pcre_exec l st) ->
  applies_loop pcre_exec (pre ++ l :: post) st
  = (1, lex_all pcre_exec (pre ++ [l]) st).
Proof.
  revert st; induction pre as [|a pre IH]; intros st Hpre Hl; simpl.
  - destruct (lex pcre_exec l st) as [len st1]; simpl in *.
    apply Z.ltb_lt in Hl. rewrite Hl. reflexivity.
  - pose proof (Hpre a (or_introl eq_refl)) as Ha.
    pose proof (lex_same_cursor a st) as Hc.
    destruct (lex pcre_exec a st) as [len st1] eqn:E; simpl in *.
    assert (E0 : (0 <? len) = false) by (apply Z.ltb_ge; exact Ha).
    rewrite E0. unfold lex_all in *; simpl; try rewrite E; simpl.
    apply IH.
    + intros l' Hin. rewrite (lex_value_same_cursor l' _ _ Hc). apply Hpre; now right.
    + now rewrite (lex_value_same_cursor l _ _ Hc).
Qed.

Lemma applies_loop_none fs st :
  (forall l, In l fs -> fst (lex pcre_exec l st) <= 0) ->
  applies_loop pcre_exec fs st = (0, lex_all pcre_exec fs st).
Proof.
  revert st; induction fs as [|a fs IH]; intros st Hall; simpl.
  - reflexivity.
  - pose proof (Hall a (or_introl eq_refl)) as Ha.
    pose proof (lex_same_cursor a st) as Hc.
    destruct (lex pcre_exec a st) as [len st1] eqn:E; simpl in *.
    assert (E0 : (0 <? len) = false) by (apply Z.ltb_ge; exact Ha).
    rewrite E0. unfold lex_all in *; simpl; try rewrite E; simpl.
    apply IH. intros l' Hin.
    rewrite (lex_value_same_cursor l' _ _ Hc). apply Hall; now right.
Qed.

Lemma applies_loop_value fs st :
  (fst (applies_loop pcre_exec fs st) = 1 /\
   exists l, In l fs /\ 0 < fst (lex pcre_exec l st)) \/
  (fst (applies_loop pcre_exec fs st) = 0 /\
   forall l, In l fs -> fst (lex pcre_exec l st) <= 0).
Proof.
  revert st; induction fs as [|a fs IH]; intros st; simpl.
  - right; split; [reflexivity | intros l []].
  - pose proof (lex_same_cursor a st) as Hc.
    destruct (lex pcre_exec a st) as [len st1] eqn:E; simpl in *.
    destruct (0 <? len) eqn:Hlen.
    + left; split; [reflexivity|].
      exists a; split; [now left|]. rewrite E; simpl. now apply Z.ltb_lt.
    + apply Z.ltb_ge in Hlen.
      destruct (IH st1) as [(Hv & l & Hin & Hl) | (Hv & Hall)].
      * left; split; [exact Hv|]. exists l; split; [now right|].
        now rewrite <- (lex_value_same_cursor l _ _ Hc).
      * right; split; [exact Hv|]. intros l [<- | Hin].
        -- now rewrite E.
        -- rewrite <- (lex_value_same_cursor l _ _ Hc). now apply Hall.
Qed.

(** C5, amended: for every node and every state, the lookahead predicate
    tries the literals of the first-set in order at the cursor and answers
    1 at the first one whose match is not empty ([lex] gives a length
    above 0), without trying the literals after it; it answers 0 when no
    literal has a non-empty match. So it answers 1 exactly when some
    literal of the first-set matches at least one character: a literal
    that matches the empty text only does not count. *)
Theorem applies_first_nonempty_match m st :
  (forall pre l post,
      first m = pre ++ l :: post ->
      (forall l', In l' pre -> fst (lex pcre_exec l' st) <= 0) ->
      0 < fst (lex pcre_exec l st) ->
      applies pcre_exec m st = (1, lex_all pcre_exec (pre ++ [l]) st)) /\
  ((forall l, In l (first m) -> fst (lex pcre_exec l st) <= 0) ->
   applies pcre_exec m st = (0, lex_all pcre_exec (first m) st)) /\
  (fst (applies pcre_exec m st) = 1 <->
   exists l, In l (first m) /\ 0 < fst (lex pcre_exec l st)) /\
  (fst (applies pcre_exec m st) = 0 <->
   forall l, In l (first m) -> fst (lex pcre_exec l st) <= 0).
Proof.
  unfold applies. split; [|split; [|split]].
  - intros pre l post -> Hpre Hl. now apply applies_loop_found.
  - apply applies_loop_none.
  - destruct (applies_loop_value (first m) st) as [(Hv & He) | (Hv & Hall)].
    + split; [intros _; exact He | intros _; exact Hv].
    + split; [rewrite Hv; discriminate|].
      intros (l & Hin & Hl). specialize (Hall l Hin). lia.
  - destruct (applies_loop_value (first m) st) as [(Hv & l & Hin & Hl) | (Hv & Hall)].
    + split; [rewrite Hv; discriminate|].
      intros Hall. specialize (Hall l Hin). lia.
    + split; [intros _; exact Hall | intros _; exact Hv].
Qed.

(** *** The cursor and the literal matcher *)

Lemma advance_loop_frame n i st :
  filename (advance_loop n i st) = filename st /\
  text (advance_loop n i st) = text st /\
  pos (advance_loop n i st) = pos st /\
  applied (advance_loop n i st) = applied st /\
  flags (advance_loop n i st) = flags st /\
  log (advance_loop n i st) = log st /\
  out (advance_loop n i st) = out st.
Proof.
  revert i st; induction n as [|n IH]; intros i st; simpl.
  - repeat split.
  - destruct (Ascii.eqb _ _).
    + destruct (IH (i + 1) (set_lineno (wrap_int (lineno st + 1)) st))
        as (? & ? & ? & ? & ? & ? & ?).
      repeat split; assumption.
    + apply IH.
Qed.

Lemma advance_pos st cnt : pos (advance st cnt) = pos st + cnt.
Proof.
  unfold advance. destruct (cnt =? 0) eqn:E.
  - apply Z.eqb_eq in E. lia.
  - destruct (advance_loop_frame (Z.to_nat cnt) 0 st) as (_ & _ & Hp & _).
    case_flags; simpl; rewrite Hp; reflexivity.
Qed.

Lemma emit_token_same_cursor msg st len :
  same_cursor st (emit_token msg st len).
Proof. unfold emit_token. case_flags; repeat split. Qed.

Lemma parse_literal_hit l st :
  0 <= fst (lex pcre_exec l st) ->
  parse_literal pcre_exec l st
  = set_applied 1
      (advance (emit_token "literal" (snd (lex pcre_exec l st))
                  (fst (lex pcre_exec l st)))
         (fst (lex pcre_exec l st))).
Proof.
  intros H. unfold parse_literal.
  destruct (lex pcre_exec l st) as [len st1]; simpl in *.
  assert (E0 : (len <? 0) = false) by (apply Z.ltb_ge; exact H).
  rewrite E0. reflexivity.
Qed.

Lemma parse_literal_miss l st :
  fst (lex pcre_exec l st) < 0 ->
  parse_literal pcre_exec l st = set_applied 0 (snd (lex pcre_exec l st)).
Proof.
  intros H. unfold parse_literal.
  destruct (lex pcre_exec l st) as [len st1]; simpl in *.
  apply Z.ltb_lt in H. rewrite H. reflexivity.
Qed.

(** C7: for every Literal node that the dispatcher is given, the dispatch
    returns; when [lex] succeeds with a length, the cursor has moved
    forward by exactly that length and the applied flag is 1; when [lex]
    fails, the applied flag is 0 and neither the offset nor the line number
    has changed. *)
Theorem parse_match_literal n g q fs l st :
  exists st',
    parse_match pcre_exec find_field (S n) g (Match q fs (LITERAL l)) st = Done st' /\
    (0 <= fst (lex pcre_exec l st) ->
     pos st' = pos st + fst (lex pcre_exec l st) /\ applied st' = 1) /\
    (fst (lex pcre_exec l st) < 0 ->
     applied st' = 0 /\ pos st' = pos st /\ lineno st' = lineno st).
Proof.
  exists (parse_literal pcre_exec l st). split; [reflexivity|]. split; intros H.
  - rewrite (parse_literal_hit _ _ H). split; [|reflexivity].
    change (pos (set_applied 1 ?s)) with (pos s).
    rewrite advance_pos.
    destruct (emit_token_same_cursor "literal" (snd (lex pcre_exec l st))
                (fst (lex pcre_exec l st))) as (_ & _ & _ & -> & _).
    destruct (lex_same_cursor l st) as (_ & _ & _ & -> & _).
    reflexivity.
  - rewrite (parse_literal_miss _ _ H).
    destruct (lex_same_cursor l st) as (_ & Hl & _ & Hp & _).
    repeat split; assumption.
Qed.

(** C9: a Literal, Any or AbbrevRef node goes straight to the literal
    matcher, whatever its quantifier: with fuel for one step the dispatch
    is [parse_literal] on the node's literal, and two such nodes that
    differ in the quantifier only give the same result, on any fuel. *)
Theorem literal_kinds_ignore_quant fuel g q q' fs l a st :
  parse_match pcre_exec find_field (S fuel) g (Match q fs (LITERAL l)) st
  = Done (parse_literal pcre_exec l st) /\
  parse_match pcre_exec find_field (S fuel) g (Match q fs (ANY l)) st
  = Done (parse_literal pcre_exec l st) /\
  parse_match pcre_exec find_field (S fuel) g (Match q fs (ABBREV_REF a)) st
  = Done (parse_literal pcre_exec (abbrev_literal a) st) /\
  parse_match pcre_exec find_field fuel g (Match q fs (LITERAL l)) st
  = parse_match pcre_exec find_field fuel g (Match q' fs (LITERAL l)) st /\
  parse_match pcre_exec find_field fuel g (Match q fs (ANY l)) st
  = parse_match pcre_exec find_field fuel g (Match q' fs (ANY l)) st /\
  parse_match pcre_exec find_field fuel g (Match q fs (ABBREV_REF a)) st
  = parse_match pcre_exec find_field fuel g (Match q' fs (ABBREV_REF a)) st.
Proof.
  repeat split; destruct fuel; reflexivity.
Qed.

(** *** Alternatives *)

Lemma applies_same_cursor m st : same_cursor st (snd (applies pcre_exec m st)).
Proof. apply applies_loop_same_cursor. Qed.

Lemma applies_value_same_place m s s' :
  text s' = text s -> pos s' = pos s ->
  fst (applies pcre_exec m s') = fst (applies pcre_exec m s).
Proof.
  unfold applies. generalize (first m) as fs.
  intros fs; revert s s'; induction fs as [|a fs IH]; intros s s' Ht Hp; simpl.
  - reflexivity.
  - pose proof (lex_value_same_place a s s' Ht Hp) as Hv.
    pose proof (lex_same_cursor a s) as (_ & _ & Ht1 & Hp1 & _).
    pose proof (lex_same_cursor a s') as (_ & _ & Ht2 & Hp2 & _).
    destruct (lex pcre_exec a s) as [len st1].
    destruct (lex pcre_exec a s') as [len' st1']. simpl in *. subst len'.
    destruct (0 <? len); [reflexivity|].
    apply IH; congruence.
Qed.

Lemma applies_all_same_cursor ps st :
  same_cursor st (applies_all pcre_exec ps st).
Proof.
  revert st; induction ps as [|a ps IH]; intros st.
  - apply same_cursor_refl.
  - eapply same_cursor_trans; [apply (applies_same_cursor a st)|].
    apply (IH (snd (applies pcre_exec a st))).
Qed.

Lemma alternative_loop_found pm pre p post st :
  (forall q, In q pre -> fst (applies pcre_exec q st) = 0) ->
  fst (applies pcre_exec p st) <> 0 ->
  alternative_loop pcre_exec pm (pre ++ p :: post) st
  = (st2 <- pm p (applies_all pcre_exec (pre ++ [p]) st) ;;
     Done (set_applied 1 st2)).
Proof.
  revert st; induction pre as [|a pre IH]; intros st Hpre Hp.
  - cbn [app alternative_loop applies_all fold_left].
    destruct (applies pcre_exec p st) as [v st1]; cbn [fst snd] in *.
    apply Z.eqb_neq in Hp. rewrite Hp. reflexivity.
  - cbn [app alternative_loop applies_all fold_left].
    pose proof (Hpre a (or_introl eq_refl)) as Ha.
    pose proof (applies_same_cursor a st) as (_ & _ & Ht & Hq & _).
    destruct (applies pcre_exec a st) as [v st1]; cbn [fst snd] in *.
    subst v. cbn [Z.eqb negb].
    apply IH.
    + intros q Hin. rewrite (applies_value_same_place q _ _ Ht Hq).
      apply Hpre; now right.
    + now rewrite (applies_value_same_place p _ _ Ht Hq).
Qed.

Lemma alternative_loop_none pm ps st :
  (forall q, In q ps -> fst (applies pcre_exec q st) = 0) ->
  alternative_loop pcre_exec pm ps st = Done (applies_all pcre_exec ps st).
Proof.
  revert st; induction ps as [|a ps IH]; intros st Hall.
  - reflexivity.
  - cbn [alternative_loop applies_all fold_left].
    pose proof (Hall a (or_introl eq_refl)) as Ha.
    pose proof (applies_same_cursor a st) as (_ & _ & Ht & Hq & _).
    destruct (applies pcre_exec a st) as [v st1]; cbn [fst snd] in *.
    subst v. cbn [Z.eqb negb].
    apply IH. intros q Hin. rewrite (applies_value_same_place q _ _ Ht Hq).
    apply Hall; now right.
Qed.

(** C2: for every Alternative node, one repetition asks the lookahead
    predicate about the branches in the order of their declaration. At the
    first branch for which it answers yes the dispatcher is called on that
    branch, and when it returns the applied flag is set to 1, whatever the
    branch left in it; the branches after it play no part (the result is
    the same for any dispatcher that agrees on the chosen branch). When the
    predicate answers no for every branch, the applied flag is 0 and the
    offset and the line number are those of the start. *)
Theorem parse_alternative_first_applicable pm q fs ps st :
  let m := Match q fs (ALTERNATIVE ps) in
  (forall pre p post,
      ps = pre ++ p :: post ->
      (forall b, In b pre -> fst (applies pcre_exec b st) = 0) ->
      fst (applies pcre_exec p st) <> 0 ->
      let st1 := applies_all pcre_exec (pre ++ [p]) (set_applied 0 st) in
      parse_alternative pcre_exec pm m st
      = (st2 <- pm p st1 ;; Done (set_applied 1 st2)) /\
      (forall st2, pm p st1 = Done st2 ->
         parse_alternative pcre_exec pm m st = Done (set_applied 1 st2)) /\
      (forall pm' : parse_match_func pcre, pm' p st1 = pm p st1 ->
         parse_alternative pcre_exec pm' m st
         = parse_alternative pcre_exec pm m st)) /\
  ((forall b, In b ps -> fst (applies pcre_exec b st) = 0) ->
   exists st',
     parse_alternative pcre_exec pm m st = Done st' /\
     applied st' = 0 /\ pos st' = pos st /\ lineno st' = lineno st).
Proof.
  intros m. split.
  - intros pre p post -> Hpre Hp st1.
    assert (Heq : forall f : parse_match_func pcre,
               parse_alternative pcre_exec f m st
               = (st2 <- f p st1 ;; Done (set_applied 1 st2))).
    { intros f. unfold parse_alternative, m, matches; cbn [type].
      apply alternative_loop_found.
      - intros b Hb. rewrite <- (Hpre b Hb).
        now apply applies_value_same_place.
      - now rewrite (applies_value_same_place p st (set_applied 0 st)). }
    split; [apply Heq|]. split.
    + intros st2 H2. rewrite Heq, H2. reflexivity.
    + intros pm' Hagree. rewrite !Heq, Hagree. reflexivity.
  - intros Hall.
    exists (applies_all pcre_exec ps (set_applied 0 st)). split.
    + unfold parse_alternative, m, matches; cbn [type].
      apply alternative_loop_none.
      intros b Hb. rewrite <- (Hall b Hb). now apply applies_value_same_place.
    + destruct (applies_all_same_cursor ps (set_applied 0 st))
        as (_ & Hl & _ & Hp & Ha & _).
      repeat split; assumption.
Qed.

(** *** The quantifier driver *)

Lemma while_applied_repeats func m n s s' :
  repeats func m n s s' ->
  forall fuel, (n <= fuel)%nat -> while_applied fuel func m s = Done s'.
Proof.
  induction 1 as [s Hs | n s s1 s' Hs Hf _ IH]; intros fuel Hfuel.
  - destruct fuel; simpl; rewrite Hs; reflexivity.
  - destruct fuel as [|fuel]; [lia|]. simpl.
    apply Z.eqb_neq in Hs. rewrite Hs, Hf. simpl.
    apply IH. lia.
Qed.

Lemma while_applies_repeats func m n s s' :
  lookahead_repeats pcre_exec func m n s s' ->
  forall fuel, (n <= fuel)%nat ->
  while_applies pcre_exec fuel func m s = Done s'.
Proof.
  induction 1 as [s Hs | n s s2 s' Hs Hf _ IH]; intros fuel Hfuel.
  - destruct fuel; simpl;
      destruct (applies pcre_exec m s) as [v s1]; simpl in *;
      subst v; reflexivity.
  - destruct fuel as [|fuel]; [lia|]. simpl.
    destruct (applies pcre_exec m s) as [v s1]; simpl in *.
    apply Z.eqb_neq in Hs. rewrite Hs, Hf. simpl.
    apply IH. lia.
Qed.

Lemma bind_set_applied (r : result (state pcre)) st' :
  (st1 <- r ;; Done (set_applied 1 st1)) = Done st' -> applied st' = 1.
Proof.
  destruct r; simpl; intros H; inversion H; reflexivity.
Qed.

(** C3: for every node whose quantifier is Plus, the driver calls the
    function for one repetition first, whatever the input: if that call
    does not return, neither does the driver. If the first call left the
    applied flag at 0, the driver reports "match did not apply" through
    [grammar_error], which returns; otherwise it calls the function again
    as long as the flag is set and stops at the first call that clears it.
    Whenever the driver returns, the applied flag is 1. *)
Theorem plus_driver fuel func m st :
  quant m = Q_PLUS ->
  (forall f, func m st = Abort f ->
     parse_quant_match pcre_exec fuel func m st = Abort f) /\
  (func m st = OutOfFuel ->
     parse_quant_match pcre_exec fuel func m st = OutOfFuel) /\
  (forall s1, func m st = Done s1 -> applied s1 = 0 ->
     let s2 := grammar_error (filename s1) (lineno s1)
                 "match did not apply" [] s1 in
     parse_quant_match pcre_exec fuel func m st = Done (set_applied 1 s2) /\
     In (GrammarError (filename s1) (lineno s1) "match did not apply" [])
        (out (set_applied 1 s2))) /\
  (forall s1 n s', func m st = Done s1 -> applied s1 <> 0 ->
     repeats func m n s1 s' -> (n <= fuel)%nat ->
     parse_quant_match pcre_exec fuel func m st = Done (set_applied 1 s') /\
     out (set_applied 1 s') = out s') /\
  (forall st', parse_quant_match pcre_exec fuel func m st = Done st' ->
     applied st' = 1).
Proof.
  intros Hq.
  split; [|split; [|split; [|split]]].
  - intros f Hf. unfold parse_quant_match. rewrite Hq, Hf. reflexivity.
  - intros Hf. unfold parse_quant_match. rewrite Hq, Hf. reflexivity.
  - intros s1 Hf Hs1 s2. split; [|now left].
    assert (Ha : applied s2 = 0) by exact Hs1.
    unfold parse_quant_match. rewrite Hq, Hf. cbn [bind].
    rewrite Hs1. cbn [Z.eqb]. fold s2.
    destruct fuel; cbn [while_applied]; rewrite Ha; reflexivity.
  - intros s1 n s' Hf Hs1 Hrep Hfuel. split; [|reflexivity].
    unfold parse_quant_match. rewrite Hq, Hf. cbn [bind].
    apply Z.eqb_neq in Hs1. rewrite Hs1.
    rewrite (while_applied_repeats _ _ _ _ _ Hrep _ Hfuel). reflexivity.
  - intros st'. unfold parse_quant_match. rewrite Hq.
    destruct (func m st) as [s1| |]; cbn [bind]; try discriminate.
    apply bind_set_applied.
Qed.

(** C10: for every node whose quantifier is Plus, when the first
    repetition leaves the applied flag at 0 the driver reports the mismatch
    and returns with the applied flag at 1; a Sequence whose dispatcher
    hands its first element to the driver in this way does not stop there:
    it goes on with the elements that follow, from the state the driver
    left. *)
Theorem plus_mismatch_not_propagated fuel func p st s1 :
  quant p = Q_PLUS ->
  func p st = Done s1 ->
  applied s1 = 0 ->
  let s' := set_applied 1
              (grammar_error (filename s1) (lineno s1)
                 "match did not apply" [] s1) in
  parse_quant_match pcre_exec fuel func p st = Done s' /\
  applied s' = 1 /\
  In (GrammarError (filename s1) (lineno s1) "match did not apply" []) (out s') /\
  (forall (pm : parse_match_func pcre) q fs rest st0,
      st = set_applied 1 st0 ->
      pm p st = parse_quant_match pcre_exec fuel func p st ->
      parse_sequence pm (Match q fs (SEQUENCE (p :: rest))) st0
      = sequence_loop pm rest s').
Proof.
  intros Hq Hf Hs1 s'.
  assert (Hd : parse_quant_match pcre_exec fuel func p st = Done s').
  { unfold parse_quant_match. rewrite Hq, Hf. cbn [bind].
    rewrite Hs1. cbn [Z.eqb].
    assert (Ha : applied (grammar_error (filename s1) (lineno s1)
                            "match did not apply" [] s1) = 0) by exact Hs1.
    destruct fuel; cbn [while_applied]; rewrite Ha; reflexivity. }
  split; [exact Hd|]. split; [reflexivity|]. split; [now left|].
  intros pm q fs rest st0 -> Hpm.
  unfold parse_sequence, matches; cbn [type sequence_loop].
  rewrite Hpm, Hd. reflexivity.
Qed.

Lemma star_driver_law fuel func m st :
  quant m = Q_STAR ->
  (forall n s', lookahead_repeats pcre_exec func m n st s' -> (n <= fuel)%nat ->
     parse_quant_match pcre_exec fuel func m st = Done (set_applied 1 s')) /\
  (fst (applies pcre_exec m st) = 0 ->
     parse_quant_match pcre_exec fuel func m st
     = Done (set_applied 1 (snd (applies pcre_exec m st))) /\
     pos (set_applied 1 (snd (applies pcre_exec m st))) = pos st) /\
  (forall st', parse_quant_match pcre_exec fuel func m st = Done st' ->
     applied st' = 1).
Proof.
  intros Hq. split; [|split].
  - intros n s' Hrep Hfuel. unfold parse_quant_match. rewrite Hq.
    rewrite (while_applies_repeats _ _ _ _ _ Hrep _ Hfuel). reflexivity.
  - intros H0. split.
    + unfold parse_quant_match. rewrite Hq.
      rewrite (while_applies_repeats _ _ _ _ _ (lookahead_stop _ _ _ _ H0) fuel)
        by lia.
      reflexivity.
    + destruct (applies_same_cursor m st) as (_ & _ & _ & Hp & _). exact Hp.
  - intros st'. unfold parse_quant_match. rewrite Hq. apply bind_set_applied.
Qed.

(** *** More fuel changes no result *)

Lemma alternative_loop_mono pm pm' ps :
  refines pm pm' ->
  forall st st', alternative_loop pcre_exec pm ps st = Done st' ->
                 alternative_loop pcre_exec pm' ps st = Done st'.
Proof.
  intros Hpm. induction ps as [|a ps IH]; intros st st'; simpl; [auto|].
  destruct (applies pcre_exec a st) as [v st1].
  destruct (negb (v =? 0)); [|apply IH].
  destruct (pm a st1) as [s2| |] eqn:E; simpl; try discriminate.
  rewrite (Hpm a st1 s2 E). auto.
Qed.

Lemma sequence_loop_mono pm pm' ps :
  refines pm pm' ->
  forall st st', sequence_loop pm ps st = Done st' ->
                 sequence_loop pm' ps st = Done st'.
Proof.
  intros Hpm. induction ps as [|a ps IH]; intros st st'; simpl; [auto|].
  destruct (pm a st) as [s1| |] eqn:E; simpl; try discriminate.
  rewrite (Hpm a st s1 E). simpl.
  destruct (applied s1 =? 0); [auto | apply IH].
Qed.

Lemma while_applied_mono func func' m :
  refines func func' ->
  forall n n' st st', (n <= n')%nat ->
    while_applied n func m st = Done st' ->
    while_applied n' func' m st = Done st'.
Proof.
  intros Hf. induction n as [|n IH]; intros n' st st' Hle; simpl;
    destruct (applied st =? 0) eqn:E; try discriminate;
    try (destruct n'; simpl; rewrite E; auto; fail).
  destruct n' as [|n']; [lia|]. simpl. rewrite E.
  destruct (func m st) as [s1| |] eqn:E1; simpl; try discriminate.
  rewrite (Hf m st s1 E1). simpl. apply IH. lia.
Qed.

Lemma while_applies_mono func func' m :
  refines func func' ->
  forall n n' st st', (n <= n')%nat ->
    while_applies pcre_exec n func m st = Done st' ->
    while_applies pcre_exec n' func' m st = Done st'.
Proof.
  intros Hf. induction n as [|n IH]; intros n' st st' Hle; simpl;
    destruct (applies pcre_exec m st) as [v st1] eqn:Ea;
    destruct (v =? 0) eqn:E; try discriminate;
    try (destruct n'; simpl; rewrite Ea, E; auto; fail).
  destruct n' as [|n']; [lia|]. simpl. rewrite Ea, E.
  destruct (func m st1) as [s2| |] eqn:E2; simpl; try discriminate.
  rewrite (Hf m st1 s2 E2). simpl. apply IH. lia.
Qed.

Lemma parse_quant_match_mono n n' func func' :
  (n <= n')%nat -> refines func func' ->
  refines (parse_quant_match pcre_exec n func)
          (parse_quant_match pcre_exec n' func').
Proof.
  intros Hle Hf m st st'. unfold parse_quant_match.
  destruct (quant m).
  - apply Hf.
  - destruct (applies pcre_exec m st) as [v st1].
    destruct (negb (v =? 0)); [|auto].
    destruct (func m st1) as [s2| |] eqn:E2; simpl; try discriminate.
    rewrite (Hf m st1 s2 E2). auto.
  - destruct (func m st) as [s1| |] eqn:E1; cbn [bind]; try discriminate.
    rewrite (Hf m st s1 E1). cbn [bind].
    match goal with
    | |- context [while_applied n func m ?s2] =>
        destruct (while_applied n func m s2) as [s3| |] eqn:E3
    end; cbn [bind]; try discriminate.
    rewrite (while_applied_mono _ _ _ Hf _ _ _ _ Hle E3). auto.
  - destruct (while_applies pcre_exec n func m st) as [s1| |] eqn:E1;
      cbn [bind]; try discriminate.
    rewrite (while_applies_mono _ _ _ Hf _ _ _ _ Hle E1). auto.
Qed.

Lemma parse_rule_mono pm pm' g r :
  refines pm pm' ->
  forall st st', parse_rule pm g r st = Done st' ->
                 parse_rule pm' g r st = Done st'.
Proof.
  intros Hpm st st'. unfold parse_rule.
  destruct (nth_error (rules g) r); [apply Hpm | auto].
Qed.

Lemma parse_match_mono g n : forall n', (n <= n')%nat ->
  refines (parse_match pcre_exec find_field n g)
          (parse_match pcre_exec find_field n' g).
Proof.
  induction n as [|n IH]; intros n' Hle m st st'; [discriminate|].
  destruct n' as [|n']; [lia|].
  assert (Hn : (n <= n')%nat) by lia. specialize (IH n' Hn).
  destruct m as [q fs t]. cbn [parse_match type].
  destruct t as [l | l | ow fd | ms | ms | r | a]; try (intros E; exact E).
  - unfold parse_field; cbn [type].
    destruct (find_field ow fd); [apply IH | auto].
  - apply parse_quant_match_mono; [exact Hn|].
    intros p s s'. unfold parse_alternative. now apply alternative_loop_mono.
  - apply parse_quant_match_mono; [exact Hn|].
    intros p s s'. unfold parse_sequence. now apply sequence_loop_mono.
  - apply parse_quant_match_mono; [exact Hn|].
    intros p s s'. unfold parse_rule_ref.
    destruct (type p); auto. now apply parse_rule_mono.
Qed.

Lemma parse_mono g fname txt lg fl n n' st' :
  (n <= n')%nat ->
  parse pcre_exec find_field n g fname txt lg fl = Done st' ->
  parse pcre_exec find_field n' g fname txt lg fl = Done st'.
Proof.
  intros Hle. unfold parse, parse_root.
  destruct (parse_rule (parse_match pcre_exec find_field n g) g O
              (start_state fname txt lg fl)) as [s| |] eqn:E;
    cbn [bind]; try discriminate.
  rewrite (parse_rule_mono _ _ g 0%nat (parse_match_mono g n n' Hle) _ _ E).
  auto.
Qed.

(** *** Counting lines *)

Lemma newlines_cons c t :
  newlines (String c t) = (if Ascii.eqb c newline then 1 else 0) + newlines t.
Proof.
  unfold newlines. cbn [list_ascii_of_string count_occ].
  destruct (ascii_dec c newline) as [-> | Hne].
  - rewrite Ascii.eqb_refl. lia.
  - apply Ascii.eqb_neq in Hne. rewrite Hne. lia.
Qed.

Lemma newlines_substring_step t : forall k n,
  newlines (substring k (S n) t)
  = (if Ascii.eqb (char_at t (Z.of_nat k)) newline then 1 else 0)
    + newlines (substring (S k) n t).
Proof.
  induction t as [|c t IH]; intros k n.
  - unfold char_at. destruct (Z.of_nat k <? 0); destruct k; reflexivity.
  - destruct k as [|k].
    + cbn [substring]. rewrite newlines_cons. reflexivity.
    + cbn [substring]. rewrite IH.
      assert (Hc : char_at (String c t) (Z.of_nat (S k)) = char_at t (Z.of_nat k)).
      { unfold char_at.
        assert (E1 : (Z.of_nat (S k) <? 0) = false) by (apply Z.ltb_ge; lia).
        assert (E2 : (Z.of_nat k <? 0) = false) by (apply Z.ltb_ge; lia).
        rewrite E1, E2, !Nat2Z.id. reflexivity. }
      rewrite Hc. destruct n; reflexivity.
Qed.

Lemma substring_zero t : forall k, substring k 0 t = EmptyString.
Proof.
  induction t as [|c t IH]; intros [|k]; try reflexivity. apply IH.
Qed.

Lemma newlines_nonneg t : 0 <= newlines t.
Proof. unfold newlines. lia. Qed.

Lemma wrap_int_id z : INT_MIN <= z <= INT_MAX -> wrap_int z = z.
Proof.
  unfold wrap_int, INT_MIN, INT_MAX. intros H.
  rewrite Z.mod_small by lia. lia.
Qed.

Lemma wrap_int_range z : INT_MIN <= wrap_int z <= INT_MAX.
Proof.
  unfold wrap_int, INT_MIN, INT_MAX.
  pose proof (Z.mod_pos_bound (z - -2147483648) (2 ^ 32) ltac:(lia)). lia.
Qed.

Lemma wrap_int_add a b : wrap_int (wrap_int a + b) = wrap_int (a + b).
Proof.
  unfold wrap_int. f_equal.
  replace ((a - INT_MIN) mod 2 ^ 32 + INT_MIN + b - INT_MIN)
    with ((a - INT_MIN) mod 2 ^ 32 + b) by lia.
  rewrite Zplus_mod_idemp_l. f_equal. lia.
Qed.

(** The loop counts modulo 2^32 ... *)
Lemma advance_loop_lineno n : forall i st,
  0 <= pos st + i ->
  wrap_int (lineno (advance_loop n i st))
  = wrap_int
      (lineno st + newlines (substring (Z.to_nat (pos st + i)) n (text st))).
Proof.
  induction n as [|n IH]; intros i st Hi.
  - cbn [advance_loop]. rewrite substring_zero.
    f_equal. unfold newlines. simpl. lia.
  - cbn [advance_loop]. rewrite newlines_substring_step.
    rewrite Z2Nat.id by exact Hi.
    replace (S (Z.to_nat (pos st + i))) with (Z.to_nat (pos st + (i + 1))) by lia.
    destruct (Ascii.eqb (char_at (text st) (pos st + i)) newline).
    + rewrite IH by (cbn [set_lineno pos]; lia).
      cbn [set_lineno pos text lineno]. rewrite wrap_int_add. f_equal. lia.
    + rewrite IH by lia. f_equal.
Qed.

(** ... and keeps the counter an [int]. *)
Lemma advance_loop_lineno_range n : forall i st,
  INT_MIN <= lineno st <= INT_MAX ->
  INT_MIN <= lineno (advance_loop n i st) <= INT_MAX.
Proof.
  induction n as [|n IH]; intros i st H; cbn [advance_loop]; [exact H|].
  destruct (Ascii.eqb _ _); apply IH; [|exact H].
  cbn [set_lineno lineno]. apply wrap_int_range.
Qed.

Lemma advance_lineno_loop st cnt :
  lineno (advance st cnt) = lineno (advance_loop (Z.to_nat cnt) 0 st).
Proof.
  unfold advance. destruct (cnt =? 0) eqn:E.
  - apply Z.eqb_eq in E. subst cnt. reflexivity.
  - case_flags; reflexivity.
Qed.

Lemma advance_lineno_wrap st cnt :
  0 <= pos st -> INT_MIN <= lineno st <= INT_MAX ->
  lineno (advance st cnt)
  = wrap_int
      (lineno st
       + newlines (substring (Z.to_nat (pos st)) (Z.to_nat cnt) (text st))).
Proof.
  intros Hp Hr. rewrite advance_lineno_loop.
  pose proof (advance_loop_lineno (Z.to_nat cnt) 0 st) as H0.
  rewrite Z.add_0_r in H0. rewrite <- (H0 Hp).
  symmetry. apply wrap_int_id. now apply advance_loop_lineno_range.
Qed.

Lemma advance_lineno st cnt :
  0 <= pos st -> INT_MIN <= lineno st ->
  lineno st
  + newlines (substring (Z.to_nat (pos st)) (Z.to_nat cnt) (text st))
  <= INT_MAX ->
  lineno (advance st cnt)
  = lineno st
    + newlines (substring (Z.to_nat (pos st)) (Z.to_nat cnt) (text st)).
Proof.
  intros Hp Hlo Hhi.
  pose proof (newlines_nonneg
                (substring (Z.to_nat (pos st)) (Z.to_nat cnt) (text st))).
  rewrite advance_lineno_wrap by (try assumption; lia).
  apply wrap_int_id. lia.
Qed.

(** *** The entry point *)

Lemma strlen_nonneg t : 0 <= strlen t.
Proof.
  induction t as [|c t IH]; cbn [strlen]; [lia|].
  destruct (Ascii.eqb c NUL); lia.
Qed.

Lemma char_at_nul_iff t i :
  0 <= i <= strlen t -> (char_at t i = NUL <-> i = strlen t).
Proof.
  revert i; induction t as [|c t IH]; intros i Hi.
  - cbn [strlen] in *. assert (i = 0) by lia. subst i. split; reflexivity.
  - cbn [strlen] in *.
    destruct (Ascii.eqb c NUL) eqn:Hc.
    + assert (i = 0) by lia. subst i.
      apply Ascii.eqb_eq in Hc. unfold char_at; simpl. split; [reflexivity | intros _; exact Hc].
    + apply Ascii.eqb_neq in Hc.
      pose proof (strlen_nonneg t) as Hn.
      destruct (Z.eq_dec i 0) as [-> | Hnz].
      * change (char_at (String c t) 0) with c.
        split; [intros H; contradiction | intros H; exfalso; lia].
      * assert (Hget : char_at (String c t) i = char_at t (i - 1)).
        { unfold char_at.
          assert (E1 : (i <? 0) = false) by (apply Z.ltb_ge; lia).
          assert (E2 : (i - 1 <? 0) = false) by (apply Z.ltb_ge; lia).
          rewrite E1, E2.
          replace (Z.to_nat i) with (S (Z.to_nat (i - 1))) by lia.
          reflexivity. }
        rewrite Hget, (IH (i - 1)) by lia. lia.
Qed.

Lemma good_set_applied txt a st : good txt st -> good txt (set_applied a st).
Proof. intros H; exact H. Qed.

Lemma good_emit txt o st :
  o <> ParseFailed -> good txt st -> good txt (emit o st).
Proof.
  intros Ho (H1 & H2 & H3). repeat split; try assumption; try apply H2.
  simpl. intros [E | E]; [now apply Ho | now apply H3].
Qed.

Lemma lex_good txt l st : good txt st -> good txt (snd (lex pcre_exec l st)).
Proof.
  intros H. unfold lex, parse_error, grammar_error.
  case_flags; cbn [snd];
    repeat (apply good_emit; [discriminate|]); exact H.
Qed.

Lemma applies_good txt m st :
  good txt st -> good txt (snd (applies pcre_exec m st)).
Proof.
  unfold applies. generalize (first m) as fs.
  intros fs; revert st; induction fs as [|a fs IH]; intros st H; simpl.
  - exact H.
  - pose proof (lex_good _ a _ H) as Hl.
    destruct (lex pcre_exec a st) as [len st1]; simpl in Hl.
    destruct (0 <? len); [exact Hl | now apply IH].
Qed.

Lemma advance_good txt st cnt :
  text st = txt -> 0 <= pos st + cnt <= strlen txt ->
  ~ In ParseFailed (out st) -> good txt (advance st cnt).
Proof.
  intros Ht Hb Ho.
  assert (Hbase : forall s, text s = txt -> pos s = pos st + cnt ->
                            out s = out st -> good txt s).
  { intros s E1 E2 E3. unfold good. rewrite E1, E2, E3. auto. }
  unfold advance. destruct (cnt =? 0) eqn:E.
  - apply Z.eqb_eq in E. apply Hbase; [assumption | lia | reflexivity].
  - destruct (advance_loop_frame (Z.to_nat cnt) 0 st)
      as (_ & Ht' & Hp' & _ & _ & _ & Ho').
    case_flags; try (apply good_emit; [discriminate|]);
      (apply Hbase; simpl; [congruence | lia | assumption]).
Qed.

Section Bounds.

(** The occurrence that [pcre_exec] reports lies between the offset at
    which the search started and the end of the subject. *)
Hypothesis pcre_exec_bounds : forall pat subject len off,
  1 <= rc (pcre_exec pat subject len off) ->
  off <= m0 (pcre_exec pat subject len off) /\
  m1 (pcre_exec pat subject len off) <= len.

Lemma lex_length_bound l st :
  0 <= fst (lex pcre_exec l st) ->
  pos st + fst (lex pcre_exec l st) <= strlen (text st).
Proof.
  unfold lex.
  pose proof (pcre_exec_bounds (re l) (text st) (strlen (text st)) (pos st)) as Hb.
  destruct (1 <=? rc _) eqn:E; cbn [fst].
  - apply Z.leb_le in E. specialize (Hb E). lia.
  - lia.
Qed.

Lemma parse_literal_good txt l st :
  good txt st -> good txt (parse_literal pcre_exec l st).
Proof.
  intros H.
  destruct (Z_lt_le_dec (fst (lex pcre_exec l st)) 0) as [Hneg | Hpos].
  - rewrite (parse_literal_miss _ _ Hneg).
    apply good_set_applied. now apply lex_good.
  - rewrite (parse_literal_hit _ _ Hpos). apply good_set_applied.
    pose proof (lex_length_bound l st Hpos) as Hlen.
    pose proof (lex_good _ l _ H) as (Ht1 & Hb1 & Ho1).
    pose proof (lex_same_cursor l st) as (_ & _ & Ht & Hp & _).
    pose proof (emit_token_same_cursor "literal" (snd (lex pcre_exec l st))
                  (fst (lex pcre_exec l st))) as (_ & _ & Ht2 & Hp2 & _).
    destruct H as (Htxt & Hb & _).
    apply advance_good.
    + congruence.
    + rewrite Hp2, Hp. rewrite Htxt in Hlen. lia.
    + unfold emit_token. case_flags; [|exact Ho1].
      simpl. intros [E | E]; [discriminate | now apply Ho1].
Qed.

Lemma alternative_loop_good txt pm ps :
  keeps_good txt pm ->
  forall st st', good txt st ->
    alternative_loop pcre_exec pm ps st = Done st' -> good txt st'.
Proof.
  intros Hpm. induction ps as [|a ps IH]; intros st st' H; simpl.
  - intros E; inversion E; subst; exact H.
  - pose proof (applies_good _ a _ H) as Ha.
    destruct (applies pcre_exec a st) as [v st1]; simpl in Ha.
    destruct (negb (v =? 0)).
    + destruct (pm a st1) as [s2| |] eqn:E2; simpl; try discriminate.
      intros E; inversion E; subst. apply good_set_applied.
      exact (Hpm a st1 s2 Ha E2).
    + now apply IH.
Qed.

Lemma sequence_loop_good txt pm ps :
  keeps_good txt pm ->
  forall st st', good txt st ->
    sequence_loop pm ps st = Done st' -> good txt st'.
Proof.
  intros Hpm. induction ps as [|a ps IH]; intros st st' H; simpl.
  - intros E; inversion E; subst; exact H.
  - destruct (pm a st) as [s1| |] eqn:E1; simpl; try discriminate.
    pose proof (Hpm a st s1 H E1) as H1.
    destruct (applied s1 =? 0).
    + intros E; inversion E; subst; exact H1.
    + now apply IH.
Qed.

Lemma while_applied_good txt func m :
  keeps_good txt func ->
  forall fuel st st', good txt st ->
    while_applied fuel func m st = Done st' -> good txt st'.
Proof.
  intros Hf. induction fuel as [|fuel IH]; intros st st' H; simpl;
    destruct (applied st =? 0); try discriminate;
    try (intros E; inversion E; subst; exact H).
  destruct (func m st) as [s1| |] eqn:E1; simpl; try discriminate.
  apply IH. exact (Hf m st s1 H E1).
Qed.

Lemma while_applies_good txt func m :
  keeps_good txt func ->
  forall fuel st st', good txt st ->
    while_applies pcre_exec fuel func m st = Done st' -> good txt st'.
Proof.
  intros Hf. induction fuel as [|fuel IH]; intros st st' H; simpl;
    pose proof (applies_good _ m _ H) as Ha;
    destruct (applies pcre_exec m st) as [v st1]; simpl in Ha;
    destruct (v =? 0); try discriminate;
    try (intros E; inversion E; subst; exact Ha).
  destruct (func m st1) as [s2| |] eqn:E2; simpl; try discriminate.
  apply IH. exact (Hf m st1 s2 Ha E2).
Qed.

Lemma parse_quant_match_good txt fuel func :
  keeps_good txt func ->
  keeps_good txt (parse_quant_match pcre_exec fuel func).
Proof.
  intros Hf m st st' H. unfold parse_quant_match.
  destruct (quant m).
  - apply Hf; exact H.
  - pose proof (applies_good _ m _ H) as Ha.
    destruct (applies pcre_exec m st) as [v st1]; simpl in Ha.
    destruct (negb (v =? 0)).
    + destruct (func m st1) as [s2| |] eqn:E2; simpl; try discriminate.
      intros E; inversion E; subst. apply good_set_applied.
      exact (Hf m st1 s2 Ha E2).
    + simpl. intros E; inversion E; subst. now apply good_set_applied.
  - destruct (func m st) as [s1| |] eqn:E1; cbn [bind]; try discriminate.
    pose proof (Hf m st s1 H E1) as H1.
    match goal with
    | |- context [while_applied fuel func m ?s2] =>
        assert (H2 : good txt s2)
          by (destruct (applied s1 =? 0);
              [apply good_emit; [discriminate | exact H1] | exact H1]);
        destruct (while_applied fuel func m s2) as [s3| |] eqn:E3
    end; cbn [bind]; try discriminate.
    intros E; inversion E; subst. apply good_set_applied.
    eapply while_applied_good; eassumption.
  - destruct (while_applies pcre_exec fuel func m st) as [s1| |] eqn:E1;
      cbn [bind]; try discriminate.
    intros E; inversion E; subst. apply good_set_applied.
    eapply while_applies_good; eassumption.
Qed.

Lemma parse_rule_good txt pm g :
  keeps_good txt pm ->
  forall r st st', good txt st -> parse_rule pm g r st = Done st' -> good txt st'.
Proof.
  intros Hpm r st st' H. unfold parse_rule.
  destruct (nth_error (rules g) r) as [rl|]; [|discriminate].
  apply Hpm. case_flags; [apply good_emit; [discriminate|]|]; exact H.
Qed.

Lemma parse_match_good txt g fuel :
  keeps_good txt (parse_match pcre_exec find_field fuel g).
Proof.
  induction fuel as [|n IH]; intros m st st' H; simpl; [discriminate|].
  destruct m as [q fs t]; cbn [type].
  destruct t as [l | l | ow fd | ms | ms | r | a].
  - intros E; inversion E; subst. now apply parse_literal_good.
  - unfold parse_any; cbn [literal type].
    intros E; inversion E; subst. now apply parse_literal_good.
  - unfold parse_field; cbn [type].
    destruct (find_field ow fd) as [f|]; [|discriminate].
    apply IH; exact H.
  - apply parse_quant_match_good; [|exact H].
    intros p s s' Hs. unfold parse_alternative.
    apply alternative_loop_good; [exact IH | now apply good_set_applied].
  - apply parse_quant_match_good; [|exact H].
    intros p s s' Hs. unfold parse_sequence.
    apply sequence_loop_good; [exact IH | now apply good_set_applied].
  - apply parse_quant_match_good; [|exact H].
    intros p s s' Hs. unfold parse_rule_ref.
    destruct (type p); try discriminate.
    apply parse_rule_good; [exact IH | exact Hs].
  - intros E; inversion E; subst. now apply parse_literal_good.
Qed.

Lemma start_state_good fname txt lg fl :
  good txt (start_state (pcre:=pcre) fname txt lg fl).
Proof.
  pose proof (strlen_nonneg txt).
  unfold start_state, init_state.
  destruct lg as [f|]; [destruct (negb (fl =? PF_NONE))|];
    (repeat split; simpl; try lia; intros [E | []]; discriminate).
Qed.

(** C1: for every grammar and every text, on any fuel, [parse] reports
    success (it returns without printing "Parse failed") exactly when the
    root rule, invoked on the fresh cursor, returns with the applied flag
    set and the offset at the length of the text; it reports failure
    exactly when the root rule returns otherwise, so that whenever the
    root rule returns before the end of the text the parse is a failure. *)
Theorem parse_success_law fuel g fname txt lg fl :
  let root := parse_root pcre_exec find_field fuel g
                (start_state fname txt lg fl) in
  let outcome := parse pcre_exec find_field fuel g fname txt lg fl in
  (reports_success outcome <->
   exists st', root = Done st' /\ applied st' <> 0 /\ pos st' = strlen txt) /\
  (reports_failure outcome <->
   exists st', root = Done st' /\ ~ (applied st' <> 0 /\ pos st' = strlen txt)) /\
  (forall st', root = Done st' -> pos st' <> strlen txt ->
     reports_failure outcome).
Proof.
  intros root outcome.
  assert (Hcase : forall st', root = Done st' ->
            good txt st' /\
            ((applied st' <> 0 /\ pos st' = strlen txt) /\ outcome = Done st' \/
             ~ (applied st' <> 0 /\ pos st' = strlen txt) /\
             outcome = Done (emit ParseFailed st'))).
  { intros st' Hroot.
    assert (Hg : good txt st').
    { unfold root, parse_root in Hroot.
      eapply parse_rule_good; [apply parse_match_good | | exact Hroot].
      apply start_state_good. }
    split; [exact Hg|].
    destruct Hg as (Ht & Hb & _).
    pose proof (char_at_nul_iff txt (pos st') Hb) as Hnul.
    unfold outcome, parse. fold root. rewrite Hroot. cbn [bind]. rewrite Ht.
    destruct (applied st' =? 0) eqn:Ea; cbn [orb].
    - apply Z.eqb_eq in Ea. right. split; [intros [Hc _]; now apply Hc | reflexivity].
    - apply Z.eqb_neq in Ea.
      destruct (Ascii.eqb (char_at txt (pos st')) NUL) eqn:Ec; cbn [negb].
      + apply Ascii.eqb_eq in Ec. left. split; [|reflexivity].
        split; [exact Ea | now apply Hnul].
      + apply Ascii.eqb_neq in Ec. right. split; [|reflexivity].
        intros [_ Hp]. apply Ec. now apply Hnul. }
  assert (Hnone : forall st, outcome = Done st -> exists st', root = Done st').
  { unfold outcome, parse. fold root.
    destruct root as [s'| |]; cbn [bind]; try discriminate.
    intros _ _. now exists s'. }
  split; [|split].
  - split.
    + intros (st & Hout & Hno).
      destruct (Hnone st Hout) as (st' & Hroot).
      destruct (Hcase st' Hroot) as (_ & [(Hc & Ho) | (_ & Ho)]).
      * now exists st'.
      * rewrite Ho in Hout. inversion Hout; subst.
        exfalso. apply Hno. now left.
    + intros (st' & Hroot & Hc).
      destruct (Hcase st' Hroot) as ((_ & _ & Hno) & [(_ & Ho) | (Hn & _)]).
      * exists st'. split; assumption.
      * contradiction.
  - split.
    + intros (st & Hout & Hin).
      destruct (Hnone st Hout) as (st' & Hroot).
      destruct (Hcase st' Hroot) as ((_ & _ & Hno) & [(_ & Ho) | (Hn & _)]).
      * rewrite Ho in Hout. inversion Hout; subst. contradiction.
      * now exists st'.
    + intros (st' & Hroot & Hn).
      destruct (Hcase st' Hroot) as (_ & [(Hc & _) | (_ & Ho)]).
      * contradiction.
      * exists (emit ParseFailed st'). split; [exact Ho | now left].
  - intros st' Hroot Hp.
    destruct (Hcase st' Hroot) as (_ & [((_ & Hc) & _) | (_ & Ho)]).
    + contradiction.
    + exists (emit ParseFailed st'). split; [exact Ho | now left].
Qed.

End Bounds.

(** *** The other quantifiers and the sequence *)

(** X1: for every node whose quantifier is Maybe, the driver asks the
    lookahead predicate once: on a no it does not call the function for a
    repetition and the offset and the line number stay as they were; on a
    yes it calls the function once, and does not return if that call does
    not; whenever it returns the applied flag is 1. *)
Theorem maybe_driver fuel func m st :
  quant m = Q_MAYBE ->
  (fst (applies pcre_exec m st) = 0 ->
   parse_quant_match pcre_exec fuel func m st
   = Done (set_applied 1 (snd (applies pcre_exec m st))) /\
   pos (set_applied 1 (snd (applies pcre_exec m st))) = pos st /\
   lineno (set_applied 1 (snd (applies pcre_exec m st))) = lineno st) /\
  (fst (applies pcre_exec m st) <> 0 ->
   parse_quant_match pcre_exec fuel func m st
   = (s <- func m (snd (applies pcre_exec m st)) ;; Done (set_applied 1 s))) /\
  (forall st', parse_quant_match pcre_exec fuel func m st = Done st' ->
               applied st' = 1).
Proof.
  intros Hq. split; [|split].
  - intros H0.
    destruct (applies_same_cursor m st) as (_ & Hl & _ & Hp & _).
    split; [|split; assumption].
    unfold parse_quant_match. rewrite Hq.
    destruct (applies pcre_exec m st) as [v s1]; cbn [fst snd] in *.
    subst v. reflexivity.
  - intros H1. unfold parse_quant_match. rewrite Hq.
    destruct (applies pcre_exec m st) as [v s1]; cbn [fst snd] in *.
    apply Z.eqb_neq in H1. rewrite H1. reflexivity.
  - intros st'. unfold parse_quant_match. rewrite Hq.
    destruct (applies pcre_exec m st) as [v s1].
    apply bind_set_applied.
Qed.

Lemma sequence_loop_all pm ps : forall st s',
  all_apply pm ps st s' -> sequence_loop pm ps st = Done s'.
Proof.
  induction ps as [|a ps IH]; intros st s' H; inversion H; subst.
  - reflexivity.
  - cbn [sequence_loop].
    match goal with
    | Hr : pm a st = Done ?s1, Ha : applied ?s1 <> 0 |- _ =>
        rewrite Hr; cbn [bind]; apply Z.eqb_neq in Ha; rewrite Ha
    end.
    now apply IH.
Qed.

Lemma sequence_loop_stop pm pre p post : forall st s1 s',
  all_apply pm pre st s1 -> pm p s1 = Done s' -> applied s' = 0 ->
  sequence_loop pm (pre ++ p :: post) st = Done s'.
Proof.
  induction pre as [|a pre IH]; intros st s1 s' H Hp H0; inversion H; subst.
  - cbn [app sequence_loop]. rewrite Hp. cbn [bind]. rewrite H0. reflexivity.
  - cbn [app sequence_loop].
    match goal with
    | Hr : pm a st = Done ?s2, Ha : applied ?s2 <> 0 |- _ =>
        rewrite Hr; cbn [bind]; apply Z.eqb_neq in Ha; rewrite Ha
    end.
    eapply IH; eassumption.
Qed.

Lemma sequence_loop_cases pm ps : forall st st',
  applied st <> 0 ->
  sequence_loop pm ps st = Done st' ->
  (applied st' <> 0 /\ all_apply pm ps st st') \/
  (applied st' = 0 /\
   exists pre p post s1,
     ps = pre ++ p :: post /\ all_apply pm pre st s1 /\ pm p s1 = Done st').
Proof.
  induction ps as [|a ps IH]; intros st st' Hst; cbn [sequence_loop].
  - intros E; inversion E; subst. left. split; [exact Hst | constructor].
  - destruct (pm a st) as [s1| |] eqn:E1; cbn [bind]; try discriminate.
    destruct (applied s1 =? 0) eqn:Ea.
    + intros E; inversion E; subst. apply Z.eqb_eq in Ea.
      right. split; [exact Ea|].
      exists [], a, ps, st. repeat split; [constructor | exact E1].
    + apply Z.eqb_neq in Ea. intros Hrun.
      destruct (IH s1 st' Ea Hrun)
        as [(Hn & Hall) | (H0 & pre & p & post & s2 & -> & Hall & Hp)].
      * left. split; [exact Hn|]. econstructor; eassumption.
      * right. split; [exact H0|].
        exists (a :: pre), p, post, s2.
        repeat split; [econstructor; eassumption | exact Hp].
Qed.

(** X2: for every Sequence node, one repetition sets the applied flag and
    dispatches the elements in order. If every element returns with the
    flag set, it returns the state the last one left (the state of entry
    with the flag set for an empty Sequence). If an element returns with
    the flag clear, it returns the state that element left, and the
    elements after it are not dispatched. It returns in no other way. *)
Theorem parse_sequence_stops_at_first_failure pm q fs ps st :
  (forall s', all_apply pm ps (set_applied 1 st) s' ->
     parse_sequence pm (Match q fs (SEQUENCE ps)) st = Done s') /\
  (forall pre p post s1 s',
     ps = pre ++ p :: post ->
     all_apply pm pre (set_applied 1 st) s1 ->
     pm p s1 = Done s' -> applied s' = 0 ->
     parse_sequence pm (Match q fs (SEQUENCE ps)) st = Done s') /\
  (forall st',
     parse_sequence pm (Match q fs (SEQUENCE ps)) st = Done st' ->
     (applied st' <> 0 /\ all_apply pm ps (set_applied 1 st) st') \/
     (applied st' = 0 /\
      exists pre p post s1,
        ps = pre ++ p :: post /\ all_apply pm pre (set_applied 1 st) s1 /\
        pm p s1 = Done st')).
Proof.
  unfold parse_sequence, matches; cbn [type]. split; [|split].
  - intros s' H. now apply sequence_loop_all.
  - intros pre p post s1 s' -> Hall Hp H0.
    eapply sequence_loop_stop; eassumption.
  - intros st' H. apply sequence_loop_cases; [discriminate | exact H].
Qed.

Lemma while_applied_complete func m : forall fuel s s',
  while_applied fuel func m s = Done s' ->
  exists n, (n <= fuel)%nat /\ repeats func m n s s'.
Proof.
  induction fuel as [|fuel IH]; intros s s'; cbn [while_applied];
    destruct (applied s =? 0) eqn:E; try discriminate.
  - intros H; inversion H; subst. apply Z.eqb_eq in E.
    exists O. split; [lia | now constructor].
  - intros H; inversion H; subst. apply Z.eqb_eq in E.
    exists O. split; [lia | now constructor].
  - destruct (func m s) as [s1| |] eqn:E1; cbn [bind]; try discriminate.
    intros H. destruct (IH s1 s' H) as (n & Hn & Hrep).
    apply Z.eqb_neq in E.
    exists (S n). split; [lia | econstructor; eassumption].
Qed.

(** X3: for every node whose quantifier is Plus, the driver returns in the
    two ways of C3 only: the first call returned with the applied flag
    clear, the mismatch was reported and nothing else was called; or the
    first call returned with the flag set and further calls, each from a
    state with the flag set, led to the first state with the flag clear. *)
Theorem plus_driver_complete fuel func m st st' :
  quant m = Q_PLUS ->
  parse_quant_match pcre_exec fuel func m st = Done st' ->
  exists s1,
    func m st = Done s1 /\
    ((applied s1 = 0 /\
      st' = set_applied 1
              (grammar_error (filename s1) (lineno s1)
                 "match did not apply" [] s1)) \/
     (applied s1 <> 0 /\
      exists n s', (n <= fuel)%nat /\ repeats func m n s1 s' /\
                   st' = set_applied 1 s')).
Proof.
  intros Hq. unfold parse_quant_match. rewrite Hq.
  destruct (func m st) as [s1| |] eqn:E1; cbn [bind]; try discriminate.
  intros H. exists s1. split; [reflexivity|].
  destruct (applied s1 =? 0) eqn:Ea.
  - apply Z.eqb_eq in Ea. left. split; [exact Ea|].
    assert (Ha : applied (grammar_error (filename s1) (lineno s1)
                            "match did not apply" [] s1) = 0) by exact Ea.
    destruct fuel; cbn [while_applied] in H; rewrite Ha in H;
      cbn [Z.eqb bind] in H; now inversion H.
  - apply Z.eqb_neq in Ea. right. split; [exact Ea|].
    destruct (while_applied fuel func m s1) as [s3| |] eqn:E3;
      cbn [bind] in H; try discriminate.
    inversion H; subst.
    destruct (while_applied_complete _ _ _ _ _ E3) as (n & Hn & Hrep).
    exists n, s3. repeat split; assumption.
Qed.

Lemma while_applies_complete func m : forall fuel s s',
  while_applies pcre_exec fuel func m s = Done s' ->
  exists n, (n <= fuel)%nat /\ lookahead_repeats pcre_exec func m n s s'.
Proof.
  induction fuel as [|fuel IH]; intros s s'; cbn [while_applies];
    destruct (applies pcre_exec m s) as [v s1] eqn:Ea;
    destruct (v =? 0) eqn:E; try discriminate.
  - intros H; inversion H; subst. apply Z.eqb_eq in E.
    exists O. split; [lia|].
    replace s' with (snd (applies pcre_exec m s)) by (now rewrite Ea).
    constructor. now rewrite Ea.
  - intros H; inversion H; subst. apply Z.eqb_eq in E.
    exists O. split; [lia|].
    replace s' with (snd (applies pcre_exec m s)) by (now rewrite Ea).
    constructor. now rewrite Ea.
  - destruct (func m s1) as [s2| |] eqn:E2; cbn [bind]; try discriminate.
    intros H. destruct (IH s2 s' H) as (n & Hn & Hrep).
    apply Z.eqb_neq in E.
    exists (S n). split; [lia|].
    apply lookahead_again with (s2 := s2);
      [now rewrite Ea | now rewrite Ea | exact Hrep].
Qed.

Lemma lookahead_repeats_end func m n s s' :
  lookahead_repeats pcre_exec func m n s s' ->
  fst (applies pcre_exec m s') = 0.
Proof.
  induction 1 as [s H0 | n s s2 s' _ _ _ IH]; [|exact IH].
  destruct (applies_same_cursor m s) as (_ & _ & Ht & Hp & _).
  now rewrite (applies_value_same_place m _ _ Ht Hp).
Qed.

(** X4: for every node whose quantifier is Star, the driver returns in the
    way of C4 only, after repetitions that each followed a yes of the
    lookahead predicate; and in the state it returns the predicate says
    no: the loop never stops while the node could still apply. *)
Theorem star_driver_complete fuel func m st st' :
  quant m = Q_STAR ->
  parse_quant_match pcre_exec fuel func m st = Done st' ->
  (exists n s', (n <= fuel)%nat /\
                lookahead_repeats pcre_exec func m n st s' /\
                st' = set_applied 1 s') /\
  fst (applies pcre_exec m st') = 0.
Proof.
  intros Hq. unfold parse_quant_match. rewrite Hq.
  destruct (while_applies pcre_exec fuel func m st) as [s1| |] eqn:E1;
    cbn [bind]; try discriminate.
  intros H; inversion H; subst.
  destruct (while_applies_complete _ _ _ _ _ E1) as (n & Hn & Hrep).
  split; [exists n, s1; repeat split; assumption|].
  rewrite (applies_value_same_place m s1 (set_applied 1 s1) eq_refl eq_refl).
  eapply lookahead_repeats_end; eassumption.
Qed.

(** *** Loops that make no progress *)

Lemma while_applied_diverges func m :
  (forall s, exists s', func m s = Done s' /\ applied s' <> 0) ->
  forall fuel s, applied s <> 0 -> while_applied fuel func m s = OutOfFuel.
Proof.
  intros Hf. induction fuel as [|fuel IH]; intros s Hs; cbn [while_applied];
    apply Z.eqb_neq in Hs; rewrite Hs; [reflexivity|].
  destruct (Hf s) as (s' & -> & Hs'). cbn [bind]. now apply IH.
Qed.

(** X5: for every node whose quantifier is Plus, if the function for one
    repetition always returns with the applied flag set, the driver never
    returns: on every fuel the loop is still running when the fuel is
    spent. An empty Sequence is such a repetition. *)
Theorem plus_never_returns fuel func m st :
  quant m = Q_PLUS ->
  (forall s, exists s', func m s = Done s' /\ applied s' <> 0) ->
  parse_quant_match pcre_exec fuel func m st = OutOfFuel.
Proof.
  intros Hq Hf. unfold parse_quant_match. rewrite Hq.
  destruct (Hf st) as (s1 & -> & Hs1). cbn [bind].
  pose proof Hs1 as Hs1'. apply Z.eqb_neq in Hs1'. rewrite Hs1'.
  now rewrite (while_applied_diverges _ _ Hf fuel s1 Hs1).
Qed.

Lemma while_applies_diverges func m txt off :
  (forall s, text s = txt -> pos s = off ->
             exists s', func m s = Done s' /\ text s' = txt /\ pos s' = off) ->
  forall fuel s, text s = txt -> pos s = off ->
                 fst (applies pcre_exec m s) <> 0 ->
                 while_applies pcre_exec fuel func m s = OutOfFuel.
Proof.
  intros Hf. induction fuel as [|fuel IH]; intros s Ht Hp Ha;
    cbn [while_applies];
    destruct (applies_same_cursor m s) as (_ & _ & Ht1 & Hp1 & _);
    destruct (applies pcre_exec m s) as [v s1] eqn:E; cbn [fst snd] in *;
    pose proof Ha as Ha'; apply Z.eqb_neq in Ha'; rewrite Ha'; [reflexivity|].
  destruct (Hf s1) as (s2 & -> & Ht2 & Hp2); [congruence | congruence |].
  cbn [bind]. apply IH; [exact Ht2 | exact Hp2 |].
  rewrite (applies_value_same_place m s s2) by congruence.
  now rewrite E.
Qed.

(** X6: for every node whose quantifier is Star, if the lookahead
    predicate says yes and the function for one repetition returns
    without moving the cursor, the driver never returns: the predicate
    says yes again at the same place, on every fuel. *)
Theorem star_never_returns fuel func m st :
  quant m = Q_STAR ->
  fst (applies pcre_exec m st) <> 0 ->
  (forall s, text s = text st -> pos s = pos st ->
             exists s', func m s = Done s' /\
                        text s' = text st /\ pos s' = pos st) ->
  parse_quant_match pcre_exec fuel func m st = OutOfFuel.
Proof.
  intros Hq Ha Hf. unfold parse_quant_match. rewrite Hq.
  now rewrite (while_applies_diverges func m (text st) (pos st) Hf
                 fuel st eq_refl eq_refl Ha).
Qed.

(** X7: a rule whose body is a reference, taken once, to the rule itself
    never returns: on every fuel and from every state the dispatch of the
    reference is still descending when the fuel is spent. *)
Theorem self_reference_never_returns g r rl fs fuel st :
  nth_error (rules g) r = Some rl ->
  rule_matches rl = Match Q_ONCE fs (RULE_REF r) ->
  parse_match pcre_exec find_field fuel g (Match Q_ONCE fs (RULE_REF r)) st
  = OutOfFuel.
Proof.
  intros Hr Hb. revert st. induction fuel as [|fuel IH]; intros st.
  - reflexivity.
  - cbn [parse_match type]. unfold parse_quant_match; cbn [quant].
    unfold parse_rule_ref; cbn [type]. unfold parse_rule.
    rewrite Hr, Hb. apply IH.
Qed.

(** *** What every run of the dispatcher keeps *)

Section Frame.

(** A relation between the state at the call and the state at the return
    that the steps of the parser establish. *)
Variable R : state pcre -> state pcre -> Prop.
Hypothesis R_refl : forall s, R s s.
Hypothesis R_trans : forall s1 s2 s3, R s1 s2 -> R s2 s3 -> R s1 s3.
Hypothesis R_set_applied : forall a s, R s (set_applied a s).
Hypothesis R_lex : forall l s, R s (snd (lex pcre_exec l s)).
Hypothesis R_literal : forall l s, R s (parse_literal pcre_exec l s).
Hypothesis R_mismatch : forall s,
  R s (grammar_error (filename s) (lineno s) "match did not apply" [] s).
Hypothesis R_rule : forall nm s,
  R s (if flag_set s PF_RULE then emit (TraceR pcre (log s) nm) s else s).

Lemma applies_frame m s : R s (snd (applies pcre_exec m s)).
Proof.
  unfold applies. generalize (first m) as fs.
  intros fs; revert s; induction fs as [|a fs IH]; intros s; simpl.
  - apply R_refl.
  - pose proof (R_lex a s) as Hl.
    destruct (lex pcre_exec a s) as [len s1]; simpl in Hl.
    destruct (0 <? len); [exact Hl|].
    eapply R_trans; [exact Hl | apply IH].
Qed.

Lemma alternative_loop_frame pm ps :
  (forall b s s', pm b s = Done s' -> R s s') ->
  forall st st', alternative_loop pcre_exec pm ps st = Done st' -> R st st'.
Proof.
  intros Hpm. induction ps as [|a ps IH]; intros st st'; simpl.
  - intros E; inversion E; subst. apply R_refl.
  - pose proof (applies_frame a st) as Ha.
    destruct (applies pcre_exec a st) as [v st1]; simpl in Ha.
    destruct (negb (v =? 0)).
    + destruct (pm a st1) as [s2| |] eqn:E2; simpl; try discriminate.
      intros E; inversion E; subst.
      eapply R_trans; [exact Ha|].
      eapply R_trans; [exact (Hpm a st1 s2 E2) | apply R_set_applied].
    + intros E. eapply R_trans; [exact Ha | now apply IH].
Qed.

Lemma sequence_loop_frame pm ps :
  (forall b s s', pm b s = Done s' -> R s s') ->
  forall st st', sequence_loop pm ps st = Done st' -> R st st'.
Proof.
  intros Hpm. induction ps as [|a ps IH]; intros st st'; simpl.
  - intros E; inversion E; subst. apply R_refl.
  - destruct (pm a st) as [s1| |] eqn:E1; simpl; try discriminate.
    pose proof (Hpm a st s1 E1) as H1.
    destruct (applied s1 =? 0).
    + intros E; inversion E; subst; exact H1.
    + intros E. eapply R_trans; [exact H1 | now apply IH].
Qed.

Lemma while_applied_frame func m :
  (forall b s s', func b s = Done s' -> R s s') ->
  forall fuel st st', while_applied fuel func m st = Done st' -> R st st'.
Proof.
  intros Hf. induction fuel as [|fuel IH]; intros st st'; simpl;
    destruct (applied st =? 0); try discriminate;
    try (intros E; inversion E; subst; apply R_refl).
  destruct (func m st) as [s1| |] eqn:E1; simpl; try discriminate.
  intros E. eapply R_trans; [exact (Hf m st s1 E1) | now apply IH].
Qed.

Lemma while_applies_frame func m :
  (forall b s s', func b s = Done s' -> R s s') ->
  forall fuel st st',
    while_applies pcre_exec fuel func m st = Done st' -> R st st'.
Proof.
  intros Hf. induction fuel as [|fuel IH]; intros st st'; simpl;
    pose proof (applies_frame m st) as Ha;
    destruct (applies pcre_exec m st) as [v st1]; simpl in Ha;
    destruct (v =? 0); try discriminate;
    try (intros E; inversion E; subst; exact Ha).
  destruct (func m st1) as [s2| |] eqn:E2; simpl; try discriminate.
  intros E. eapply R_trans; [exact Ha|].
  eapply R_trans; [exact (Hf m st1 s2 E2) | now apply IH].
Qed.

Lemma parse_quant_match_frame fuel func :
  (forall b s s', func b s = Done s' -> R s s') ->
  forall m st st',
    parse_quant_match pcre_exec fuel func m st = Done st' -> R st st'.
Proof.
  intros Hf m st st'. unfold parse_quant_match.
  destruct (quant m).
  - apply Hf.
  - pose proof (applies_frame m st) as Ha.
    destruct (applies pcre_exec m st) as [v st1]; simpl in Ha.
    destruct (negb (v =? 0)).
    + destruct (func m st1) as [s2| |] eqn:E2; simpl; try discriminate.
      intros E; inversion E; subst.
      eapply R_trans; [exact Ha|].
      eapply R_trans; [exact (Hf m st1 s2 E2) | apply R_set_applied].
    + simpl. intros E; inversion E; subst.
      eapply R_trans; [exact Ha | apply R_set_applied].
  - destruct (func m st) as [s1| |] eqn:E1; cbn [bind]; try discriminate.
    pose proof (Hf m st s1 E1) as H1.
    match goal with
    | |- context [while_applied fuel func m ?s2] =>
        assert (H2 : R s1 s2)
          by (destruct (applied s1 =? 0); [apply R_mismatch | apply R_refl]);
        destruct (while_applied fuel func m s2) as [s3| |] eqn:E3
    end; cbn [bind]; try discriminate.
    intros E; inversion E; subst.
    eapply R_trans; [exact H1|]. eapply R_trans; [exact H2|].
    eapply R_trans; [|apply R_set_applied].
    eapply while_applied_frame; eassumption.
  - destruct (while_applies pcre_exec fuel func m st) as [s1| |] eqn:E1;
      cbn [bind]; try discriminate.
    intros E; inversion E; subst.
    eapply R_trans; [|apply R_set_applied].
    eapply while_applies_frame; eassumption.
Qed.

Lemma parse_rule_frame pm g r :
  (forall b s s', pm b s = Done s' -> R s s') ->
  forall st st', parse_rule pm g r st = Done st' -> R st st'.
Proof.
  intros Hpm st st'. unfold parse_rule.
  destruct (nth_error (rules g) r) as [rl|]; [|discriminate].
  intros E. eapply R_trans; [apply (R_rule (name rl) st)|].
  eapply Hpm; exact E.
Qed.

Lemma parse_match_frame g fuel : forall m st st',
  parse_match pcre_exec find_field fuel g m st = Done st' -> R st st'.
Proof.
  induction fuel as [|n IH]; intros m st st'; simpl; [discriminate|].
  destruct m as [q fs t]; cbn [type].
  destruct t as [l | l | ow fd | ms | ms | r | a].
  - intros E; inversion E; subst. apply R_literal.
  - unfold parse_any; cbn [literal type].
    intros E; inversion E; subst. apply R_literal.
  - unfold parse_field; cbn [type].
    destruct (find_field ow fd) as [f|]; [|discriminate]. apply IH.
  - apply parse_quant_match_frame.
    intros b s s'. unfold parse_alternative. intros E.
    eapply R_trans; [apply (R_set_applied 0 s)|].
    eapply alternative_loop_frame; [exact IH | exact E].
  - apply parse_quant_match_frame.
    intros b s s'. unfold parse_sequence. intros E.
    eapply R_trans; [apply (R_set_applied 1 s)|].
    eapply sequence_loop_frame; [exact IH | exact E].
  - apply parse_quant_match_frame.
    intros b s s'. unfold parse_rule_ref.
    destruct (type b); try discriminate.
    apply parse_rule_frame. exact IH.
  - intros E; inversion E; subst. apply R_literal.
Qed.

Lemma parse_root_frame g fuel st st' :
  parse_root pcre_exec find_field fuel g st = Done st' -> R st st'.
Proof.
  unfold parse_root. apply parse_rule_frame. apply parse_match_frame.
Qed.

End Frame.

(** *** The cursor only moves forward *)

Lemma forward_refl st : forward st st.
Proof. unfold forward. repeat split; lia. Qed.

Lemma forward_trans s1 s2 s3 : forward s1 s2 -> forward s2 s3 -> forward s1 s3.
Proof.
  unfold forward.
  intros (? & ? & ? & ? & ?) (? & ? & ? & ? & ?).
  repeat split; try congruence; lia.
Qed.

Lemma forward_same_cursor s s' : same_cursor s s' -> forward s s'.
Proof.
  intros (? & ? & ? & ? & ? & ? & ?). unfold forward.
  repeat split; try assumption; lia.
Qed.

Lemma forward_set_applied a st : forward st (set_applied a st).
Proof. unfold forward. simpl. repeat split; lia. Qed.

Lemma advance_forward st cnt : 0 <= cnt -> forward st (advance st cnt).
Proof.
  intros Hc. unfold advance. destruct (cnt =? 0); [apply forward_refl|].
  destruct (advance_loop_frame (Z.to_nat cnt) 0 st)
    as (Hf & Ht & Hp & _ & Hfl & Hl & _).
  unfold forward.
  case_flags; simpl; repeat split; try assumption; lia.
Qed.

Lemma parse_literal_forward l st : forward st (parse_literal pcre_exec l st).
Proof.
  destruct (Z_lt_le_dec (fst (lex pcre_exec l st)) 0) as [Hneg | Hpos].
  - rewrite (parse_literal_miss _ _ Hneg).
    eapply forward_trans; [apply forward_same_cursor, (lex_same_cursor l st)|].
    apply forward_set_applied.
  - rewrite (parse_literal_hit _ _ Hpos).
    eapply forward_trans; [apply forward_same_cursor, (lex_same_cursor l st)|].
    eapply forward_trans;
      [apply forward_same_cursor, emit_token_same_cursor|].
    eapply forward_trans; [apply advance_forward; exact Hpos|].
    apply forward_set_applied.
Qed.

Lemma parse_match_forward g fuel m st st' :
  parse_match pcre_exec find_field fuel g m st = Done st' -> forward st st'.
Proof.
  apply (parse_match_frame (@forward pcre) forward_refl forward_trans).
  - apply forward_set_applied.
  - intros l s. apply forward_same_cursor, lex_same_cursor.
  - apply parse_literal_forward.
  - intros s. apply forward_same_cursor. repeat split.
  - intros nm s. apply forward_same_cursor. case_flags; repeat split.
Qed.

(** *** The line number is that of the cursor *)

Lemma newlines_substring_add t : forall a k b,
  newlines (substring k (a + b) t)
  = newlines (substring k a t) + newlines (substring (k + a) b t).
Proof.
  induction a as [|a IH]; intros k b.
  - rewrite substring_zero, Nat.add_0_r. cbn [Nat.add].
    unfold newlines at 2. simpl. lia.
  - cbn [Nat.add]. rewrite !newlines_substring_step, IH.
    replace (k + S a)%nat with (S k + a)%nat by lia. lia.
Qed.

Lemma newlines_le_length t : newlines t <= Z.of_nat (String.length t).
Proof.
  induction t as [|c t IH].
  - unfold newlines. simpl. lia.
  - rewrite newlines_cons. cbn [String.length].
    destruct (Ascii.eqb c newline); lia.
Qed.

Lemma substring_length_le t : forall k n,
  (String.length (substring k n t) <= String.length t)%nat.
Proof.
  induction t as [|c t IH]; intros k n.
  - destruct k, n; simpl; lia.
  - destruct k as [|k].
    + destruct n as [|n]; cbn [substring String.length]; [lia|].
      specialize (IH O n). lia.
    + cbn [substring String.length]. specialize (IH k n). lia.
Qed.

Lemma newlines_substring_le t k n :
  newlines (substring k n t) <= Z.of_nat (String.length t).
Proof.
  pose proof (newlines_le_length (substring k n t)).
  pose proof (substring_length_le t k n). lia.
Qed.

Lemma line_tracked_refl st : line_tracked st st.
Proof.
  intros Hp Hr. unfold consumed.
  rewrite Z.sub_diag. cbn [Z.to_nat]. rewrite substring_zero.
  repeat split; try lia.
  replace (lineno st + newlines EmptyString) with (lineno st)
    by (unfold newlines; simpl; lia).
  symmetry. now apply wrap_int_id.
Qed.

Lemma line_tracked_trans s1 s2 s3 :
  line_tracked s1 s2 -> line_tracked s2 s3 -> line_tracked s1 s3.
Proof.
  intros H12 H23 Hp Hr.
  destruct (H12 Hp Hr) as (Ht2 & Hp2 & Hl2).
  destruct H23 as (Ht3 & Hp3 & Hl3);
    [lia | rewrite Hl2; apply wrap_int_range |].
  split; [congruence|]. split; [lia|].
  rewrite Hl3, Hl2, wrap_int_add. f_equal.
  unfold consumed. rewrite Ht2.
  replace (Z.to_nat (pos s3 - pos s1))
    with (Z.to_nat (pos s2 - pos s1) + Z.to_nat (pos s3 - pos s2))%nat by lia.
  rewrite newlines_substring_add.
  replace (Z.to_nat (pos s1) + Z.to_nat (pos s2 - pos s1))%nat
    with (Z.to_nat (pos s2)) by lia.
  lia.
Qed.

Lemma line_tracked_same_place s s' :
  text s' = text s -> pos s' = pos s -> lineno s' = lineno s ->
  line_tracked s s'.
Proof.
  intros Ht Hq Hl Hp Hr.
  destruct (line_tracked_refl s Hp Hr) as (_ & _ & E).
  unfold consumed in *. rewrite Hq, Hl.
  repeat split; try assumption; lia.
Qed.

Lemma line_tracked_same_cursor s s' : same_cursor s s' -> line_tracked s s'.
Proof.
  intros (_ & Hl & Ht & Hq & _). now apply line_tracked_same_place.
Qed.

Lemma line_tracked_set_applied a st : line_tracked st (set_applied a st).
Proof. now apply line_tracked_same_place. Qed.

Lemma advance_line_tracked st cnt :
  0 <= cnt -> line_tracked st (advance st cnt).
Proof.
  intros Hc Hp Hr.
  assert (Ht : text (advance st cnt) = text st).
  { unfold advance. destruct (cnt =? 0); [reflexivity|].
    destruct (advance_loop_frame (Z.to_nat cnt) 0 st) as (_ & Ht & _).
    case_flags; simpl; exact Ht. }
  split; [exact Ht|]. split; [rewrite advance_pos; lia|].
  rewrite (advance_lineno_wrap st cnt Hp Hr). unfold consumed.
  rewrite advance_pos.
  replace (pos st + cnt - pos st) with cnt by lia. reflexivity.
Qed.

Lemma parse_literal_line_tracked l st :
  line_tracked st (parse_literal pcre_exec l st).
Proof.
  destruct (Z_lt_le_dec (fst (lex pcre_exec l st)) 0) as [Hneg | Hpos].
  - rewrite (parse_literal_miss _ _ Hneg).
    eapply line_tracked_trans;
      [apply line_tracked_same_cursor, (lex_same_cursor l st)|].
    apply line_tracked_set_applied.
  - rewrite (parse_literal_hit _ _ Hpos).
    eapply line_tracked_trans;
      [apply line_tracked_same_cursor, (lex_same_cursor l st)|].
    eapply line_tracked_trans;
      [apply line_tracked_same_cursor, emit_token_same_cursor|].
    eapply line_tracked_trans; [apply advance_line_tracked; exact Hpos|].
    apply line_tracked_set_applied.
Qed.

Lemma parse_match_line_tracked g fuel m st st' :
  parse_match pcre_exec find_field fuel g m st = Done st' ->
  line_tracked st st'.
Proof.
  apply (parse_match_frame (@line_tracked pcre) line_tracked_refl
           line_tracked_trans).
  - apply line_tracked_set_applied.
  - intros l s. apply line_tracked_same_cursor, lex_same_cursor.
  - apply parse_literal_line_tracked.
  - intros s. apply line_tracked_same_cursor. repeat split.
  - intros nm s. apply line_tracked_same_cursor. case_flags; repeat split.
Qed.

(** X8: whenever the dispatcher returns, the file name, the text, the
    flags and the log are those of the call and the offset is not smaller
    than at the call: the parser never moves back in the text and never
    changes what it was given. The line number is not smaller either, as
    long as the 32-bit line counter has not overflowed: when it was an
    [int] at the call, at an offset that is not negative, and the newlines
    between the two offsets do not take it past [INT_MAX]. *)
Theorem dispatch_moves_forward fuel g m st st' :
  parse_match pcre_exec find_field fuel g m st = Done st' ->
  filename st' = filename st /\ text st' = text st /\
  flags st' = flags st /\ log st' = log st /\
  pos st <= pos st' /\
  (0 <= pos st -> INT_MIN <= lineno st ->
   lineno st + newlines (consumed st st') <= INT_MAX ->
   lineno st <= lineno st').
Proof.
  intros Hrun.
  destruct (parse_match_forward g fuel m st st' Hrun)
    as (Hf & Ht & Hfl & Hl & Hp).
  repeat split; try assumption.
  intros Hp0 Hlo Hhi.
  pose proof (newlines_nonneg (consumed st st')) as Hn.
  destruct (parse_match_line_tracked g fuel m st st' Hrun Hp0)
    as (_ & _ & Hline); [lia|].
  rewrite Hline, wrap_int_id by lia. lia.
Qed.

(** X9: whenever the dispatcher returns from a call made at an offset
    that is not negative, with a line number that is an [int], the line
    number has grown by exactly the number of newline characters between
    the offset of the call and the offset of the return, as long as that
    sum does not pass [INT_MAX]; and when the root rule returns in [parse]
    on a text of fewer than [INT_MAX] characters, the line number is 1
    plus the number of newlines in the text before the cursor, so every
    diagnostic carries the line on which the cursor stands. *)
Theorem line_number_follows_cursor fuel g :
  (forall m st st',
     parse_match pcre_exec find_field fuel g m st = Done st' ->
     0 <= pos st ->
     INT_MIN <= lineno st ->
     lineno st + newlines (consumed st st') <= INT_MAX ->
     lineno st' = lineno st + newlines (consumed st st')) /\
  (forall fname txt lg fl st',
     parse_root pcre_exec find_field fuel g (start_state fname txt lg fl)
     = Done st' ->
     Z.of_nat (String.length txt) < INT_MAX ->
     lineno st' = 1 + newlines (substring 0 (Z.to_nat (pos st')) txt)).
Proof.
  split.
  - intros m st st' Hrun Hp Hlo Hhi.
    pose proof (newlines_nonneg (consumed st st')) as Hn.
    destruct (parse_match_line_tracked g fuel m st st' Hrun Hp)
      as (_ & _ & Hline); [lia|].
    rewrite Hline. apply wrap_int_id. lia.
  - intros fname txt lg fl st' Hrun Hlen.
    assert (Hlt : line_tracked (start_state fname txt lg fl) st').
    { unfold parse_root in Hrun.
      eapply (parse_rule_frame (@line_tracked pcre) line_tracked_trans);
        [| | exact Hrun].
      - intros nm s. apply line_tracked_same_cursor. case_flags; repeat split.
      - intros b s s'. apply parse_match_line_tracked. }
    assert (Hs : lineno (start_state (pcre:=pcre) fname txt lg fl) = 1 /\
                 pos (start_state (pcre:=pcre) fname txt lg fl) = 0 /\
                 text (start_state (pcre:=pcre) fname txt lg fl) = txt).
    { unfold start_state, init_state.
      destruct lg; [destruct (negb (fl =? PF_NONE))|]; repeat split. }
    destruct Hs as (Hl & Hp & Ht).
    destruct Hlt as (_ & _ & Hline);
      [lia | rewrite Hl; unfold INT_MIN, INT_MAX; lia |].
    rewrite Hline, Hl. unfold consumed. rewrite Hp, Ht, Z.sub_0_r.
    cbn [Z.to_nat].
    pose proof (newlines_substring_le txt 0 (Z.to_nat (pos st'))).
    pose proof (newlines_nonneg (substring 0 (Z.to_nat (pos st')) txt)).
    apply wrap_int_id. unfold INT_MIN, INT_MAX in *. lia.
Qed.

(** *** The cursor stays inside the text *)

Section InsideText.

Hypothesis pcre_exec_in_subject : forall pat subject len off,
  1 <= rc (pcre_exec pat subject len off) ->
  off <= m0 (pcre_exec pat subject len off) /\
  m1 (pcre_exec pat subject len off) <= len.

Lemma stays_inside_refl st : stays_inside st st.
Proof. intros H. split; [reflexivity | exact H]. Qed.

Lemma stays_inside_trans s1 s2 s3 :
  stays_inside s1 s2 -> stays_inside s2 s3 -> stays_inside s1 s3.
Proof.
  intros H12 H23 H. destruct (H12 H) as (Ht2 & Hb2).
  destruct H23 as (Ht3 & Hb3); [rewrite Ht2; exact Hb2|].
  rewrite Ht2 in Ht3, Hb3. split; assumption.
Qed.

Lemma stays_inside_same_place s s' :
  text s' = text s -> pos s' = pos s -> stays_inside s s'.
Proof. intros Ht Hp H. rewrite Hp. split; assumption. Qed.

Lemma parse_literal_stays_inside l st :
  stays_inside st (parse_literal pcre_exec l st).
Proof.
  intros Hb.
  destruct (lex_same_cursor l st) as (_ & _ & Ht & Hp & _).
  destruct (Z_lt_le_dec (fst (lex pcre_exec l st)) 0) as [Hneg | Hpos].
  - rewrite (parse_literal_miss _ _ Hneg). cbn [set_applied text pos].
    rewrite Ht, Hp. split; [reflexivity | exact Hb].
  - rewrite (parse_literal_hit _ _ Hpos).
    pose proof (lex_length_bound pcre_exec_in_subject l st Hpos) as Hlen.
    destruct (emit_token_same_cursor "literal" (snd (lex pcre_exec l st))
                (fst (lex pcre_exec l st))) as (_ & _ & Ht2 & Hp2 & _).
    change (text (set_applied 1 ?s)) with (text s).
    change (pos (set_applied 1 ?s)) with (pos s).
    rewrite advance_pos, Hp2, Hp.
    split; [|lia].
    match goal with
    | |- text (advance ?s ?c) = _ =>
        unfold advance; destruct (c =? 0);
          [congruence|];
          destruct (advance_loop_frame (Z.to_nat c) 0 s) as (_ & Hta & _);
          case_flags; simpl; congruence
    end.
Qed.

(** X10: with a regular expression engine whose matches lie between the
    offset of the search and the end of the subject, the dispatcher never
    leaves the text: from a cursor between 0 and the length of the text it
    returns with the same text and a cursor between 0 and its length. *)
Theorem cursor_stays_in_text fuel g m st st' :
  parse_match pcre_exec find_field fuel g m st = Done st' ->
  0 <= pos st <= strlen (text st) ->
  text st' = text st /\ 0 <= pos st' <= strlen (text st').
Proof.
  intros Hrun Hb.
  assert (H : stays_inside st st').
  { revert Hrun.
    apply (parse_match_frame (@stays_inside pcre) stays_inside_refl
             stays_inside_trans).
    - intros a s. now apply stays_inside_same_place.
    - intros l s. destruct (lex_same_cursor l s) as (_ & _ & Ht & Hp & _).
      now apply stays_inside_same_place.
    - apply parse_literal_stays_inside.
    - intros s. now apply stays_inside_same_place.
    - intros nm s. apply stays_inside_same_place; case_flags; reflexivity. }
  destruct (H Hb) as (Ht & Hp). rewrite Ht. split; [reflexivity | exact Hp].
Qed.

End InsideText.

(** *** What is written *)

Lemma wrote_refl P st : wrote P st st.
Proof. exists []. split; [reflexivity | constructor]. Qed.

Lemma wrote_trans P s1 s2 s3 : wrote P s1 s2 -> wrote P s2 s3 -> wrote P s1 s3.
Proof.
  intros (e1 & H1 & F1) (e2 & H2 & F2). exists (e2 ++ e1). split.
  - rewrite H2, H1. apply app_assoc.
  - apply Forall_app. split; assumption.
Qed.

Lemma wrote_same_out P s s' : out s' = out s -> wrote P s s'.
Proof. intros H. exists []. split; [exact H | constructor]. Qed.

Lemma wrote_emit (P : output pcre -> Prop) o st : P o -> wrote P st (emit o st).
Proof. intros H. exists [o]. split; [reflexivity | now constructor]. Qed.

Section Wrote.

(** A property of everything that the steps of the parser write. *)
Variable P : output pcre -> Prop.
Hypothesis P_advance : forall f cnt b a, P (TraceA pcre f cnt b a).
Hypothesis P_token : forall f msg tok, P (TraceT pcre f msg tok).
Hypothesis P_rule : forall f nm, P (TraceR pcre f nm).
Hypothesis P_mismatch : forall f ln, P (GrammarError f ln "match did not apply" []).
Hypothesis wrote_lex : forall l s, wrote P s (snd (lex pcre_exec l s)).

Lemma advance_wrote st cnt : wrote P st (advance st cnt).
Proof.
  unfold advance. destruct (cnt =? 0); [apply wrote_refl|].
  destruct (advance_loop_frame (Z.to_nat cnt) 0 st)
    as (_ & _ & _ & _ & _ & _ & Ho).
  assert (Hb : wrote P st (set_pos (pos (advance_loop (Z.to_nat cnt) 0 st) + cnt)
                             (advance_loop (Z.to_nat cnt) 0 st)))
    by (apply wrote_same_out; exact Ho).
  destruct (flag_set _ PF_ADVANCE); [|exact Hb].
  eapply wrote_trans; [exact Hb | apply wrote_emit, P_advance].
Qed.

Lemma parse_literal_wrote l st : wrote P st (parse_literal pcre_exec l st).
Proof.
  destruct (Z_lt_le_dec (fst (lex pcre_exec l st)) 0) as [Hneg | Hpos].
  - rewrite (parse_literal_miss _ _ Hneg).
    eapply wrote_trans; [apply wrote_lex | now apply wrote_same_out].
  - rewrite (parse_literal_hit _ _ Hpos).
    eapply wrote_trans; [apply wrote_lex|].
    eapply wrote_trans;
      [|eapply wrote_trans; [apply advance_wrote | now apply wrote_same_out]].
    unfold emit_token.
    destruct (flag_set _ PF_TOKEN); [apply wrote_emit, P_token | apply wrote_refl].
Qed.

Lemma parse_match_wrote g fuel m st st' :
  parse_match pcre_exec find_field fuel g m st = Done st' -> wrote P st st'.
Proof.
  apply (parse_match_frame (wrote P) (wrote_refl P) (wrote_trans P)).
  - intros a s. now apply wrote_same_out.
  - apply wrote_lex.
  - apply parse_literal_wrote.
  - intros s. apply wrote_emit, P_mismatch.
  - intros nm s. destruct (flag_set s PF_RULE);
      [apply wrote_emit, P_rule | apply wrote_refl].
Qed.

End Wrote.

Lemma lex_wrote_no_failure l st :
  wrote (fun o => o <> ParseFailed) st (snd (lex pcre_exec l st)).
Proof.
  unfold lex, parse_error, grammar_error.
  case_flags; cbn [snd];
    repeat (eapply wrote_trans; [|apply wrote_emit; discriminate]);
    apply wrote_refl.
Qed.

Lemma parse_match_no_failure g fuel m st st' :
  parse_match pcre_exec find_field fuel g m st = Done st' ->
  wrote (fun o => o <> ParseFailed) st st'.
Proof.
  apply parse_match_wrote; try discriminate. apply lex_wrote_no_failure.
Qed.

Lemma flag_set_none st f : flags st = PF_NONE -> flag_set st f = false.
Proof. intros H. unfold flag_set. rewrite H. reflexivity. Qed.

Lemma untraced_refl st : untraced st st.
Proof. intros H. split; [exact H | apply wrote_refl]. Qed.

Lemma untraced_trans s1 s2 s3 :
  untraced s1 s2 -> untraced s2 s3 -> untraced s1 s3.
Proof.
  intros H12 H23 H. destruct (H12 H) as (Hf2 & W2).
  destruct (H23 Hf2) as (Hf3 & W3).
  split; [exact Hf3 | eapply wrote_trans; eassumption].
Qed.

Lemma untraced_same_out s s' :
  flags s' = flags s -> out s' = out s -> untraced s s'.
Proof.
  intros Hf Ho H. split; [congruence | now apply wrote_same_out].
Qed.

Lemma untraced_diagnostic f ln fmt args st :
  untraced st (emit (GrammarError f ln fmt args) st).
Proof. intros H. split; [exact H | now apply wrote_emit]. Qed.

Lemma lex_untraced l st : untraced st (snd (lex pcre_exec l st)).
Proof.
  intros H. unfold lex, parse_error, grammar_error.
  rewrite (flag_set_none st PF_MATCH H).
  case_flags; cbn [snd];
    (split; [exact H | (now apply wrote_emit) || apply wrote_refl]).
Qed.

Lemma parse_literal_untraced l st : untraced st (parse_literal pcre_exec l st).
Proof.
  destruct (Z_lt_le_dec (fst (lex pcre_exec l st)) 0) as [Hneg | Hpos].
  - rewrite (parse_literal_miss _ _ Hneg).
    eapply untraced_trans; [apply lex_untraced | now apply untraced_same_out].
  - rewrite (parse_literal_hit _ _ Hpos).
    apply (untraced_trans st (snd (lex pcre_exec l st))); [apply lex_untraced|].
    intros H.
    remember (snd (lex pcre_exec l st)) as s1 eqn:Es1.
    remember (fst (lex pcre_exec l st)) as len eqn:Elen.
    clear Es1 Elen.
    assert (E1 : emit_token "literal" s1 len = s1).
    { unfold emit_token. now rewrite (flag_set_none s1 PF_TOKEN H). }
    rewrite E1.
    assert (E2 : flags (advance s1 len) = flags s1 /\
                 out (advance s1 len) = out s1).
    { unfold advance. destruct (len =? 0); [split; reflexivity|].
      destruct (advance_loop_frame (Z.to_nat len) 0 s1)
        as (_ & _ & _ & _ & Hfl & _ & Ho).
      unfold flag_set. cbn [set_pos flags]. rewrite Hfl, H. cbn.
      split; [congruence | assumption]. }
    destruct E2 as (Hfl & Ho).
    split; [cbn [set_applied flags]; congruence|].
    apply wrote_same_out. exact Ho.
Qed.

Lemma parse_match_untraced g fuel m st st' :
  parse_match pcre_exec find_field fuel g m st = Done st' -> untraced st st'.
Proof.
  apply (parse_match_frame (@untraced pcre) untraced_refl untraced_trans).
  - intros a s. now apply untraced_same_out.
  - apply lex_untraced.
  - apply parse_literal_untraced.
  - intros s. apply untraced_diagnostic.
  - intros nm s H. rewrite (flag_set_none s PF_RULE H).
    split; [exact H | apply wrote_refl].
Qed.

(** X11: with the flags clear the dispatcher writes nothing but
    diagnostics: whatever it adds to the output is made of calls of
    [grammar_error], no line of the trace; and a [parse] that was given no
    log, or no flag, writes the line of the flags (all clear), then
    diagnostics only, then "Parse failed" once, as the last thing written,
    or not at all. *)
Theorem no_trace_without_flags fuel g :
  (forall m st st',
     parse_match pcre_exec find_field fuel g m st = Done st' ->
     flags st = PF_NONE ->
     exists evs, out st' = evs ++ out st /\
                 Forall (fun o => is_diagnostic o = true) evs) /\
  (forall fname txt lg fl st',
     parse pcre_exec find_field fuel g fname txt lg fl = Done st' ->
     lg = None \/ fl = PF_NONE ->
     exists evs,
       Forall (fun o => is_diagnostic o = true) evs /\
       (out st' = evs ++ [Flags PF_NONE] \/
        out st' = ParseFailed :: evs ++ [Flags PF_NONE])).
Proof.
  split.
  - intros m st st' Hrun Hfl.
    destruct (parse_match_untraced g fuel m st st' Hrun Hfl) as (_ & W).
    exact W.
  - intros fname txt lg fl st' Hrun Hoff.
    assert (Hs : flags (start_state (pcre:=pcre) fname txt lg fl) = PF_NONE /\
                 out (start_state (pcre:=pcre) fname txt lg fl)
                 = [Flags PF_NONE]).
    { unfold start_state, init_state.
      destruct Hoff as [-> | ->]; [split; reflexivity|].
      destruct lg; split; reflexivity. }
    destruct Hs as (Hfl & Hout).
    unfold parse in Hrun.
    destruct (parse_root pcre_exec find_field fuel g
                (start_state fname txt lg fl)) as [s1| |] eqn:Er;
      cbn [bind] in Hrun; try discriminate.
    assert (W : untraced (start_state fname txt lg fl) s1).
    { unfold parse_root in Er.
      eapply (parse_rule_frame (@untraced pcre) untraced_trans);
        [| | exact Er].
      - intros nm s H. rewrite (flag_set_none s PF_RULE H).
        split; [exact H | apply wrote_refl].
      - intros b s s'. apply parse_match_untraced. }
    destruct (W Hfl) as (_ & evs & Ho & Hall). rewrite Hout in Ho.
    exists evs. split; [exact Hall|].
    destruct ((applied s1 =? 0)
              || negb (Ascii.eqb (char_at (text s1) (pos s1)) NUL))%bool;
      inversion Hrun; subst.
    + right. cbn [emit out]. now rewrite Ho.
    + left. exact Ho.
Qed.

Section Anchored.

(** The engine honours PCRE_ANCHORED: a match starts at the offset. *)
Hypothesis pcre_exec_anchored : forall pat subject len off,
  1 <= rc (pcre_exec pat subject len off) ->
  m0 (pcre_exec pat subject len off) = off.

Lemma lex_wrote_no_skip l st :
  wrote (fun o => is_skipped o = false) st (snd (lex pcre_exec l st)).
Proof.
  unfold lex.
  pose proof (pcre_exec_anchored (re l) (text st) (strlen (text st)) (pos st))
    as Ha.
  destruct (1 <=? rc _) eqn:E; cbn [snd].
  - apply Z.leb_le in E. rewrite (Ha E), Z.eqb_refl. cbn [negb].
    destruct (flag_set st PF_MATCH); [now apply wrote_emit | apply wrote_refl].
  - destruct (flag_set st PF_MATCH); [now apply wrote_emit | apply wrote_refl].
Qed.

(** X12: with a regular expression engine that honours the anchor, a
    match starting at the offset of the search, the dispatcher never
    reports skipped characters: nothing it writes is the diagnostic
    "Skipped %d characters". *)
Theorem skipped_never_reported fuel g m st st' :
  parse_match pcre_exec find_field fuel g m st = Done st' ->
  exists evs, out st' = evs ++ out st /\
              Forall (fun o => is_skipped o = false) evs.
Proof.
  apply parse_match_wrote; try reflexivity. apply lex_wrote_no_skip.
Qed.

End Anchored.

(** *** Tracing does not change the parse *)

Implicit Types t : state pcre.

Lemma same_run_refl st : same_run st st.
Proof. repeat split. Qed.

Lemma same_run_step s t s' t' :
  same_run s t -> same_cursor s s' -> same_cursor t t' -> same_run s' t'.
Proof.
  unfold same_run, same_cursor.
  intros (? & ? & ? & ? & ?) (? & ? & ? & ? & ? & ? & ?)
         (? & ? & ? & ? & ? & ? & ?).
  repeat split; congruence.
Qed.

Lemma same_run_set_applied a s t :
  same_run s t -> same_run (set_applied a s) (set_applied a t).
Proof.
  unfold same_run. intros (? & ? & ? & ? & ?). repeat split; assumption.
Qed.

Lemma lex_sim l s t :
  same_run s t ->
  fst (lex pcre_exec l t) = fst (lex pcre_exec l s) /\
  same_run (snd (lex pcre_exec l s)) (snd (lex pcre_exec l t)).
Proof.
  intros H. split.
  - destruct H as (_ & _ & Ht & Hp & _). now apply lex_value_same_place.
  - eapply same_run_step; [exact H | apply lex_same_cursor..].
Qed.

Lemma applies_sim m s t :
  same_run s t ->
  fst (applies pcre_exec m t) = fst (applies pcre_exec m s) /\
  same_run (snd (applies pcre_exec m s)) (snd (applies pcre_exec m t)).
Proof.
  intros H. split.
  - destruct H as (_ & _ & Ht & Hp & _). now apply applies_value_same_place.
  - eapply same_run_step; [exact H | apply applies_same_cursor..].
Qed.

Lemma advance_loop_sim n : forall i s t,
  text t = text s -> pos t = pos s -> lineno t = lineno s ->
  lineno (advance_loop n i t) = lineno (advance_loop n i s).
Proof.
  induction n as [|n IH]; intros i s t Ht Hp Hl; cbn [advance_loop].
  - exact Hl.
  - rewrite Ht, Hp.
    destruct (Ascii.eqb _ _); apply IH; cbn [set_lineno text pos lineno];
      congruence.
Qed.

Lemma advance_sim cnt s t :
  same_run s t -> same_run (advance s cnt) (advance t cnt).
Proof.
  intros (Hf & Hl & Ht & Hp & Ha).
  pose proof (advance_loop_sim (Z.to_nat cnt) 0 s t Ht Hp Hl) as Hn.
  destruct (advance_loop_frame (Z.to_nat cnt) 0 s)
    as (Hfs & Hts & Hps & Has & _).
  destruct (advance_loop_frame (Z.to_nat cnt) 0 t)
    as (Hft & Htt & Hpt & Hat & _).
  unfold same_run, advance.
  destruct (cnt =? 0); [repeat split; assumption|].
  case_flags; simpl; repeat split; congruence.
Qed.

Lemma parse_literal_sim l s t :
  same_run s t ->
  same_run (parse_literal pcre_exec l s) (parse_literal pcre_exec l t).
Proof.
  intros H. destruct (lex_sim l s t H) as (Hv & Hs).
  destruct (Z_lt_le_dec (fst (lex pcre_exec l s)) 0) as [Hneg | Hpos].
  - rewrite (parse_literal_miss l s Hneg).
    rewrite (parse_literal_miss l t) by (rewrite Hv; exact Hneg).
    now apply same_run_set_applied.
  - rewrite (parse_literal_hit l s Hpos).
    rewrite (parse_literal_hit l t) by (rewrite Hv; exact Hpos).
    rewrite Hv. apply same_run_set_applied, advance_sim.
    eapply same_run_step; [exact Hs | apply emit_token_same_cursor..].
Qed.

Lemma alternative_loop_sim pm pm' ps :
  (forall b s t, same_run s t -> result_sim (pm b s) (pm' b t)) ->
  forall s t, same_run s t ->
    result_sim (alternative_loop pcre_exec pm ps s)
               (alternative_loop pcre_exec pm' ps t).
Proof.
  intros Hpm. induction ps as [|a ps IH]; intros s t H; cbn [alternative_loop].
  - exact H.
  - destruct (applies_sim a s t H) as (Hv & Hs).
    destruct (applies pcre_exec a s) as [v s1].
    destruct (applies pcre_exec a t) as [v' t1]. cbn [fst snd] in *. subst v'.
    destruct (negb (v =? 0)); [|now apply IH].
    specialize (Hpm a s1 t1 Hs).
    destruct (pm a s1), (pm' a t1); cbn [bind result_sim] in *;
      try assumption; try contradiction.
    now apply same_run_set_applied.
Qed.

Lemma sequence_loop_sim pm pm' ps :
  (forall b s t, same_run s t -> result_sim (pm b s) (pm' b t)) ->
  forall s t, same_run s t ->
    result_sim (sequence_loop pm ps s) (sequence_loop pm' ps t).
Proof.
  intros Hpm. induction ps as [|a ps IH]; intros s t H; cbn [sequence_loop].
  - exact H.
  - specialize (Hpm a s t H).
    destruct (pm a s) as [s1| |], (pm' a t) as [t1| |];
      cbn [bind result_sim] in *; try assumption; try contradiction.
    assert (Ha : applied t1 = applied s1) by apply Hpm. rewrite Ha.
    destruct (applied s1 =? 0); [exact Hpm | now apply IH].
Qed.

Lemma while_applied_sim func func' m :
  (forall b s t, same_run s t -> result_sim (func b s) (func' b t)) ->
  forall fuel s t, same_run s t ->
    result_sim (while_applied fuel func m s) (while_applied fuel func' m t).
Proof.
  intros Hf. induction fuel as [|fuel IH]; intros s t H; cbn [while_applied];
    (assert (Ha : applied t = applied s) by apply H); rewrite Ha;
    destruct (applied s =? 0); try exact H; try exact I.
  specialize (Hf m s t H).
  destruct (func m s) as [s1| |], (func' m t) as [t1| |];
    cbn [bind result_sim] in *; try assumption; try contradiction.
  now apply IH.
Qed.

Lemma while_applies_sim func func' m :
  (forall b s t, same_run s t -> result_sim (func b s) (func' b t)) ->
  forall fuel s t, same_run s t ->
    result_sim (while_applies pcre_exec fuel func m s)
               (while_applies pcre_exec fuel func' m t).
Proof.
  intros Hf. induction fuel as [|fuel IH]; intros s t H; cbn [while_applies];
    destruct (applies_sim m s t H) as (Hv & Hs);
    destruct (applies pcre_exec m s) as [v s1];
    destruct (applies pcre_exec m t) as [v' t1]; cbn [fst snd] in *; subst v';
    destruct (v =? 0); try exact Hs; try exact I.
  specialize (Hf m s1 t1 Hs).
  destruct (func m s1) as [s2| |], (func' m t1) as [t2| |];
    cbn [bind result_sim] in *; try assumption; try contradiction.
  now apply IH.
Qed.

Lemma result_sim_set_applied a (r r' : result (state pcre)) :
  result_sim r r' ->
  result_sim (s <- r ;; Done (set_applied a s))
             (s <- r' ;; Done (set_applied a s)).
Proof.
  destruct r, r'; cbn [bind result_sim]; try tauto.
  apply same_run_set_applied.
Qed.

Lemma parse_quant_match_sim fuel func func' :
  (forall b s t, same_run s t -> result_sim (func b s) (func' b t)) ->
  forall m s t, same_run s t ->
    result_sim (parse_quant_match pcre_exec fuel func m s)
               (parse_quant_match pcre_exec fuel func' m t).
Proof.
  intros Hf m s t H. unfold parse_quant_match. destruct (quant m).
  - now apply Hf.
  - destruct (applies_sim m s t H) as (Hv & Hs).
    destruct (applies pcre_exec m s) as [v s1].
    destruct (applies pcre_exec m t) as [v' t1]. cbn [fst snd] in *. subst v'.
    apply result_sim_set_applied.
    destruct (negb (v =? 0)); [now apply Hf | exact Hs].
  - specialize (Hf m s t H) as Hst.
    destruct (func m s) as [s1| |], (func' m t) as [t1| |];
      cbn [bind result_sim] in *; try assumption; try contradiction.
    apply result_sim_set_applied.
    apply while_applied_sim; [exact Hf|].
    assert (Ha : applied t1 = applied s1) by apply Hst. rewrite Ha.
    destruct (applied s1 =? 0); [|exact Hst].
    eapply same_run_step; [exact Hst | repeat split..].
  - apply result_sim_set_applied. now apply while_applies_sim.
Qed.

Lemma parse_rule_sim pm pm' g r :
  (forall b s t, same_run s t -> result_sim (pm b s) (pm' b t)) ->
  forall s t, same_run s t ->
    result_sim (parse_rule pm g r s) (parse_rule pm' g r t).
Proof.
  intros Hpm s t H. unfold parse_rule.
  destruct (nth_error (rules g) r) as [rl|]; [|reflexivity].
  apply Hpm.
  eapply same_run_step; [exact H | case_flags; repeat split..].
Qed.

Lemma parse_match_sim g fuel : forall m s t,
  same_run s t ->
  result_sim (parse_match pcre_exec find_field fuel g m s)
             (parse_match pcre_exec find_field fuel g m t).
Proof.
  induction fuel as [|n IH]; intros m s t H; [exact I|].
  destruct m as [q fs ty]. cbn [parse_match type].
  destruct ty as [l | l | ow fd | ms | ms | r | a].
  - now apply parse_literal_sim.
  - unfold parse_any; cbn [literal type]. now apply parse_literal_sim.
  - unfold parse_field; cbn [type].
    destruct (find_field ow fd); [now apply IH | reflexivity].
  - apply parse_quant_match_sim; [|exact H].
    intros b s0 t0 H0. unfold parse_alternative.
    apply alternative_loop_sim; [exact IH | now apply same_run_set_applied].
  - apply parse_quant_match_sim; [|exact H].
    intros b s0 t0 H0. unfold parse_sequence.
    apply sequence_loop_sim; [exact IH | now apply same_run_set_applied].
  - apply parse_quant_match_sim; [|exact H].
    intros b s0 t0 H0. unfold parse_rule_ref.
    destruct (type b); try reflexivity.
    now apply parse_rule_sim.
  - now apply parse_literal_sim.
Qed.

Lemma parse_root_no_failure g fuel fname txt lg fl st' :
  parse_root pcre_exec find_field fuel g (start_state fname txt lg fl)
  = Done st' ->
  ~ In ParseFailed (out st').
Proof.
  intros Hrun.
  assert (W : wrote (fun o => o <> ParseFailed)
                (start_state fname txt lg fl) st').
  { unfold parse_root in Hrun.
    eapply (parse_rule_frame (wrote (fun o => o <> ParseFailed))
              (wrote_trans _)); [| | exact Hrun].
    - intros nm s. destruct (flag_set s PF_RULE);
        [apply wrote_emit; discriminate | apply wrote_refl].
    - intros b s s'. apply parse_match_no_failure. }
  destruct W as (evs & Ho & Hall). rewrite Ho.
  intros Hin. apply in_app_or in Hin as [Hin | Hin].
  - rewrite Forall_forall in Hall. now apply (Hall _ Hin).
  - unfold start_state, init_state in Hin.
    destruct lg; [destruct (negb (fl =? PF_NONE))|];
      destruct Hin as [E | []]; discriminate.
Qed.

(** X13: the flags and the log change what is written and nothing else:
    for every grammar and text, on any fuel, a [parse] with any log and
    any flags returns exactly when the [parse] without log and flags does,
    in a state with the same offset, line number and applied flag, and it
    reports success, or failure, exactly when that one does. *)
Theorem tracing_changes_no_outcome fuel g fname txt lg fl :
  result_sim (parse pcre_exec find_field fuel g fname txt None PF_NONE)
             (parse pcre_exec find_field fuel g fname txt lg fl) /\
  (reports_success (parse pcre_exec find_field fuel g fname txt lg fl) <->
   reports_success (parse pcre_exec find_field fuel g fname txt None PF_NONE)) /\
  (reports_failure (parse pcre_exec find_field fuel g fname txt lg fl) <->
   reports_failure (parse pcre_exec find_field fuel g fname txt None PF_NONE)).
Proof.
  assert (Hstart : same_run (start_state (pcre:=pcre) fname txt None PF_NONE)
                            (start_state (pcre:=pcre) fname txt lg fl)).
  { unfold start_state, init_state.
    destruct lg; [destruct (negb (fl =? PF_NONE))|]; repeat split. }
  pose proof (parse_rule_sim _ _ g O (parse_match_sim g fuel) _ _ Hstart)
    as Hroot.
  pose proof (parse_root_no_failure g fuel fname txt None PF_NONE) as Hn1.
  pose proof (parse_root_no_failure g fuel fname txt lg fl) as Hn2.
  unfold parse, parse_root in *.
  destruct (parse_rule (parse_match pcre_exec find_field fuel g) g O
              (start_state fname txt None PF_NONE)) as [s| |];
    destruct (parse_rule (parse_match pcre_exec find_field fuel g) g O
                (start_state fname txt lg fl)) as [t| |];
    cbn [bind result_sim] in *; try contradiction.
  - specialize (Hn1 s eq_refl). specialize (Hn2 t eq_refl).
    destruct Hroot as (Hf & Hl & Ht & Hp & Ha).
    rewrite Ht, Hp, Ha.
    destruct ((applied s =? 0)
              || negb (Ascii.eqb (char_at (text s) (pos s)) NUL))%bool.
    + split; [repeat split; assumption|]. split; split.
      * intros (x & E & Hx). inversion E; subst. exfalso. apply Hx. now left.
      * intros (x & E & Hx). inversion E; subst. exfalso. apply Hx. now left.
      * intros _. eexists. split; [reflexivity | now left].
      * intros _. eexists. split; [reflexivity | now left].
    + split; [repeat split; assumption|]. split; split.
      * intros _. eexists. split; [reflexivity | exact Hn1].
      * intros _. eexists. split; [reflexivity | exact Hn2].
      * intros (x & E & Hx). inversion E; subst. contradiction.
      * intros (x & E & Hx). inversion E; subst. contradiction.
  - split; [exact Hroot|].
    split; split; intros (x & E & _); discriminate.
  - split; [exact I|].
    split; split; intros (x & E & _); discriminate.
Qed.

(** X14: with the flag of the token trace set, a Literal that matches
    writes a "T" line whose text is exactly the characters over which the
    cursor then moves, those between the offset before and the offset
    after the match. *)
Theorem token_trace_is_consumed_text l st :
  0 <= fst (lex pcre_exec l st) ->
  0 <= pos st ->
  flag_set st PF_TOKEN = true ->
  In (TraceT pcre (log st) "literal"
        (consumed st (parse_literal pcre_exec l st)))
     (out (parse_literal pcre_exec l st)).
Proof.
  intros Hpos Hp Hfl.
  destruct (lex_same_cursor l st) as (_ & _ & Ht & Hq & _ & Hf & Hl).
  assert (Hc : consumed st (parse_literal pcre_exec l st)
               = substring (Z.to_nat (pos st))
                   (Z.to_nat (fst (lex pcre_exec l st))) (text st)).
  { unfold consumed. rewrite (parse_literal_hit _ _ Hpos).
    change (pos (set_applied 1 ?s)) with (pos s). rewrite advance_pos.
    destruct (emit_token_same_cursor "literal" (snd (lex pcre_exec l st))
                (fst (lex pcre_exec l st))) as (_ & _ & _ & -> & _).
    rewrite Hq.
    replace (pos st + fst (lex pcre_exec l st) - pos st)
      with (fst (lex pcre_exec l st)) by lia.
    reflexivity. }
  rewrite Hc, (parse_literal_hit _ _ Hpos).
  change (out (set_applied 1 ?s)) with (out s).
  assert (Htok : In (TraceT pcre (log st) "literal"
                       (substring (Z.to_nat (pos st))
                          (Z.to_nat (fst (lex pcre_exec l st))) (text st)))
                    (out (emit_token "literal" (snd (lex pcre_exec l st))
                            (fst (lex pcre_exec l st))))).
  { unfold emit_token.
    assert (E : flag_set (snd (lex pcre_exec l st)) PF_TOKEN = true)
      by (unfold flag_set in *; now rewrite Hf).
    rewrite E, Ht, Hq, Hl. now left. }
  revert Htok.
  generalize (emit_token "literal" (snd (lex pcre_exec l st))
                (fst (lex pcre_exec l st))) as s2.
  intros s2 Htok.
  destruct (advance_wrote (fun _ => True) (fun _ _ _ _ => I) s2
              (fst (lex pcre_exec l st))) as (evs & Ho & _).
  rewrite Ho. apply in_or_app. now right.
Qed.

(** *** The ways an Alternative returns *)

Lemma first_applicable ps st :
  (forall b, In b ps -> fst (applies pcre_exec b st) = 0) \/
  exists pre p post,
    ps = pre ++ p :: post /\
    (forall b, In b pre -> fst (applies pcre_exec b st) = 0) /\
    fst (applies pcre_exec p st) <> 0.
Proof.
  induction ps as [|a ps IH].
  - left. intros b [].
  - destruct (Z.eq_dec (fst (applies pcre_exec a st)) 0) as [E | E].
    + destruct IH as [Hall | (pre & p & post & -> & Hpre & Hp)].
      * left. intros b [<- | Hb]; [exact E | now apply Hall].
      * right. exists (a :: pre), p, post. split; [reflexivity|].
        split; [|exact Hp]. intros b [<- | Hb]; [exact E | now apply Hpre].
    + right. exists [], a, ps. split; [reflexivity|].
      split; [intros b [] | exact E].
Qed.

(** X15: an Alternative returns in the two ways of C2 only. Either the
    applied flag is 0, and then the lookahead predicate said no for every
    branch and the offset and the line number are those of the call; or
    the flag is 1, and then the state is the one left by the first branch
    for which the predicate said yes, with the flag set over it. So the
    flag after an Alternative tells whether a branch was chosen, never
    whether the chosen branch applied. *)
Theorem parse_alternative_complete pm q fs ps st st' :
  parse_alternative pcre_exec pm (Match q fs (ALTERNATIVE ps)) st = Done st' ->
  (applied st' = 0 /\
   (forall b, In b ps -> fst (applies pcre_exec b st) = 0) /\
   pos st' = pos st /\ lineno st' = lineno st) \/
  (applied st' = 1 /\
   exists pre p post s2,
     ps = pre ++ p :: post /\
     (forall b, In b pre -> fst (applies pcre_exec b st) = 0) /\
     fst (applies pcre_exec p st) <> 0 /\
     pm p (applies_all pcre_exec (pre ++ [p]) (set_applied 0 st)) = Done s2 /\
     st' = set_applied 1 s2).
Proof.
  unfold parse_alternative, matches; cbn [type]. intros Hrun.
  assert (Hsame : forall b, fst (applies pcre_exec b (set_applied 0 st))
                            = fst (applies pcre_exec b st))
    by (intros b; now apply applies_value_same_place).
  destruct (first_applicable ps st)
    as [Hall | (pre & p & post & -> & Hpre & Hp)].
  - left.
    rewrite alternative_loop_none in Hrun
      by (intros b Hb; rewrite Hsame; now apply Hall).
    inversion Hrun; subst.
    destruct (applies_all_same_cursor ps (set_applied 0 st))
      as (_ & Hl & _ & Hq & Ha & _).
    repeat split; assumption.
  - right.
    rewrite alternative_loop_found in Hrun
      by (try (intros b Hb); rewrite Hsame; auto).
    destruct (pm p (applies_all pcre_exec (pre ++ [p]) (set_applied 0 st)))
      as [s2| |] eqn:E2; cbn [bind] in Hrun; try discriminate.
    inversion Hrun; subst. split; [reflexivity|].
    exists pre, p, post, s2. repeat split; assumption.
Qed.

End Laws.

(** ** The laws on the examples *)

Lemma plain_exec_bounds pat subject len off :
  1 <= rc (plain_exec pat subject len off) ->
  off <= m0 (plain_exec pat subject len off) /\
  m1 (plain_exec pat subject len off) <= len.
Proof.
  unfold plain_exec.
  destruct ((0 <=? off) && (off + Z.of_nat (String.length pat) <=? len)
            && String.eqb _ pat)%bool eqn:E; simpl.
  - apply andb_prop in E as [E _]. apply andb_prop in E as [_ E].
    apply Z.leb_le in E. lia.
  - lia.
Qed.

Lemma dispatch_mono n n' m st st' :
  (n <= n')%nat -> dispatch n m st = Done st' -> dispatch n' m st = Done st'.
Proof.
  intros Hle. exact (parse_match_mono string plain_exec no_fields no_rules
                       n n' Hle m st st').
Qed.

(** C4: for every node whose quantifier is Star, the driver asks the
    lookahead predicate before each repetition and calls the function for
    one repetition as long as the answer is yes; when the answer is no it
    stops, and whenever it returns the applied flag is 1, also after no
    repetition at all, in which case the offset has not moved. On the text
    "aaab" the driver, run on a starred node for the literal "a" with the
    literal matcher as the repetition, returns with the applied flag at 1
    and the offset at 3, past the three "a" and on the "b"; so does the
    dispatcher on a starred Sequence of that literal, on any fuel from 4
    on. *)
Theorem star_driver :
  (forall (pcre : Type) (pcre_exec : pcre -> string -> Z -> Z -> pcre_result)
          (fuel : nat) (func : parse_match_func pcre) (m : struct_match pcre)
          (st : state pcre),
      quant m = Q_STAR ->
      (forall n s',
          lookahead_repeats pcre_exec func m n st s' -> (n <= fuel)%nat ->
          parse_quant_match pcre_exec fuel func m st = Done (set_applied 1 s')) /\
      (fst (applies pcre_exec m st) = 0 ->
       parse_quant_match pcre_exec fuel func m st
       = Done (set_applied 1 (snd (applies pcre_exec m st))) /\
       pos (set_applied 1 (snd (applies pcre_exec m st))) = pos st) /\
      (forall st', parse_quant_match pcre_exec fuel func m st = Done st' ->
                   applied st' = 1)) /\
  (exists st',
      parse_quant_match plain_exec 3 (parse_any plain_exec) star_any_a
        (start "aaab") = Done st' /\
      pos st' = 3 /\ applied st' = 1 /\
      substring 0 (Z.to_nat (pos st')) (text st') = "aaa" /\
      char_at (text st') (pos st') = "b"%char) /\
  (forall fuel, (4 <= fuel)%nat ->
    exists st',
      dispatch fuel star_seq_a (start "aaab") = Done st' /\
      pos st' = 3 /\ applied st' = 1 /\
      substring 0 (Z.to_nat (pos st')) (text st') = "aaa" /\
      char_at (text st') (pos st') = "b"%char).
Proof.
  split; [|split].
  - intros pcre pcre_exec fuel func m st Hq. now apply star_driver_law.
  - eexists. split; [vm_compute; reflexivity|]. repeat split.
  - intros fuel Hfuel. eexists. split.
    + apply (dispatch_mono 4 fuel); [exact Hfuel | vm_compute; reflexivity].
    + repeat split.
Qed.

(** The Star loop on "aaab": three repetitions of the Sequence of "a". *)
Lemma star_driver_witness :
  quant star_seq_a = Q_STAR /\
  lookahead_repeats plain_exec (parse_sequence (dispatch 1)) star_seq_a 3
    (start "aaab") (set_applied 1 (set_pos 3 (start "aaab"))) /\
  parse_quant_match plain_exec 3 (parse_sequence (dispatch 1)) star_seq_a
    (start "aaab")
  = Done (set_applied 1 (set_applied 1 (set_pos 3 (start "aaab")))).
Proof.
  assert (Hrep : lookahead_repeats plain_exec (parse_sequence (dispatch 1))
                   star_seq_a 3 (start "aaab")
                   (set_applied 1 (set_pos 3 (start "aaab")))).
  { apply lookahead_again with (s2 := set_applied 1 (set_pos 1 (start "aaab")));
      [vm_compute; discriminate | vm_compute; reflexivity |].
    apply lookahead_again with (s2 := set_applied 1 (set_pos 2 (start "aaab")));
      [vm_compute; discriminate | vm_compute; reflexivity |].
    apply lookahead_again with (s2 := set_applied 1 (set_pos 3 (start "aaab")));
      [vm_compute; discriminate | vm_compute; reflexivity |].
    exact (lookahead_stop plain_exec (parse_sequence (dispatch 1)) star_seq_a
             (set_applied 1 (set_pos 3 (start "aaab"))) eq_refl). }
  split; [reflexivity|]. split; [exact Hrep|].
  exact (proj1 (proj1 star_driver string plain_exec 3%nat
                  (parse_sequence (dispatch 1)) star_seq_a (start "aaab") eq_refl)
           3%nat _ Hrep (le_n 3)).
Defined.

(** C8: for every call [advance(n)] on a cursor inside the text, the line
    counter grows by the number of newline characters among the [n]
    characters at the cursor, once for each, as long as the 32-bit counter
    does not overflow (it is an [int] at the call and the newlines do not
    take it past [INT_MAX]); the counter of a fresh cursor is 1. On the text "ab\ncd", matched by the sequence of the literals
    "ab\n" and "cd", the counter goes from 1 to 2 at the first literal and
    stays at 2 at the second: the whole parse, on any fuel from 2 on, ends
    on line 2. *)
Theorem advance_counts_newlines :
  (forall (pcre : Type) (st : state pcre) (n : Z),
      0 <= pos st ->
      INT_MIN <= lineno st ->
      lineno st
      + newlines (substring (Z.to_nat (pos st)) (Z.to_nat n) (text st))
      <= INT_MAX ->
      lineno (advance st n)
      = lineno st
        + newlines (substring (Z.to_nat (pos st)) (Z.to_nat n) (text st))) /\
  (forall (pcre : Type) fname txt lg fl,
      lineno (start_state (pcre:=pcre) fname txt lg fl) = 1) /\
  (exists s1 s2,
      dispatch 1 (once (LITERAL (lit ("ab" ++ nl)%string))) (start two_lines)
      = Done s1 /\
      lineno s1 = 2 /\ pos s1 = 3 /\
      dispatch 1 (once (LITERAL (lit "cd"))) s1 = Done s2 /\
      lineno s2 = 2 /\ pos s2 = 5) /\
  (forall fuel, (2 <= fuel)%nat ->
    exists st',
      parse plain_exec no_fields fuel two_lines_grammar "input" two_lines
        None PF_NONE
      = Done st' /\
      lineno st' = 2 /\ pos st' = strlen two_lines /\ applied st' = 1 /\
      ~ In ParseFailed (out st')).
Proof.
  split; [|split; [|split]].
  - intros pcre st n Hp Hlo Hhi. now apply advance_lineno.
  - intros pcre fname txt lg fl. unfold start_state, init_state.
    destruct lg; [destruct (negb (fl =? PF_NONE))|]; reflexivity.
  - eexists. eexists. split; [vm_compute; reflexivity|].
    split; [reflexivity|]. split; [reflexivity|].
    split; [vm_compute; reflexivity|]. split; reflexivity.
  - intros fuel Hfuel. eexists. split.
    + apply (parse_mono string plain_exec no_fields two_lines_grammar
               "input" two_lines None PF_NONE 2 fuel _ Hfuel).
      vm_compute; reflexivity.
    + split; [reflexivity|]. split; [reflexivity|]. split; [reflexivity|].
      simpl. intros [E | []]. discriminate.
Qed.

(** [advance] over the five characters of "ab\ncd" from a fresh cursor. *)
Lemma advance_counts_newlines_witness :
  0 <= pos (start two_lines) /\
  INT_MIN <= lineno (start two_lines) /\
  lineno (start two_lines)
  + newlines (substring (Z.to_nat (pos (start two_lines))) (Z.to_nat 5)
                (text (start two_lines)))
  <= INT_MAX /\
  lineno (advance (start two_lines) 5) = 1 + 1.
Proof.
  assert (H1 : 0 <= pos (start two_lines)) by (vm_compute; discriminate).
  assert (H2 : INT_MIN <= lineno (start two_lines))
    by (vm_compute; discriminate).
  assert (H3 : lineno (start two_lines)
               + newlines (substring (Z.to_nat (pos (start two_lines)))
                             (Z.to_nat 5) (text (start two_lines)))
               <= INT_MAX) by (vm_compute; discriminate).
  split; [exact H1|]. split; [exact H2|]. split; [exact H3|].
  exact (proj1 advance_counts_newlines string (start two_lines) 5 H1 H2 H3).
Defined.

(** With the engine for plain patterns, the grammar of two lines accepts
    "ab\ncd" and rejects "ab". *)
Lemma parse_success_law_witness :
  (forall pat subject len off,
      1 <= rc (plain_exec pat subject len off) ->
      off <= m0 (plain_exec pat subject len off) /\
      m1 (plain_exec pat subject len off) <= len) /\
  reports_success
    (parse plain_exec no_fields 3 two_lines_grammar "input" two_lines None PF_NONE) /\
  reports_failure
    (parse plain_exec no_fields 3 two_lines_grammar "input" "ab" None PF_NONE).
Proof.
  split; [exact plain_exec_bounds|]. split.
  - apply (proj1 (parse_success_law string plain_exec no_fields plain_exec_bounds
                    3 two_lines_grammar "input" two_lines None PF_NONE)).
    eexists. split; [vm_compute; reflexivity|].
    split; [discriminate | reflexivity].
  - apply (proj1 (proj2 (parse_success_law string plain_exec no_fields plain_exec_bounds
                           3 two_lines_grammar "input" "ab" None PF_NONE))).
    eexists. split; [vm_compute; reflexivity|].
    intros [H _]. now apply H.
Defined.

(** On "ab" the branch for "x" is passed over and the first branch for "a"
    is taken; it fails at its second literal, the flag is set all the same
    and the second branch for "a" is not tried. *)
Lemma parse_alternative_first_applicable_witness :
  (forall b, In b [branch_xy] -> fst (applies plain_exec b (start "ab")) = 0) /\
  fst (applies plain_exec branch_ax (start "ab")) <> 0 /\
  dispatch 2 branch_ax
    (applies_all plain_exec [branch_xy; branch_ax] (set_applied 0 (start "ab")))
  = Done (set_applied 0 (set_pos 1 (start "ab"))) /\
  parse_alternative plain_exec (dispatch 2)
    (Match Q_ONCE [lit "a"] (ALTERNATIVE three_branches)) (start "ab")
  = Done (set_applied 1 (set_pos 1 (start "ab"))).
Proof.
  assert (Hpre : forall b, In b [branch_xy] ->
                           fst (applies plain_exec b (start "ab")) = 0).
  { intros b [<- | []]. reflexivity. }
  assert (Hp : fst (applies plain_exec branch_ax (start "ab")) <> 0).
  { vm_compute. discriminate. }
  assert (Hrun : dispatch 2 branch_ax
                   (applies_all plain_exec [branch_xy; branch_ax]
                      (set_applied 0 (start "ab")))
                 = Done (set_applied 0 (set_pos 1 (start "ab")))).
  { vm_compute. reflexivity. }
  split; [exact Hpre|]. split; [exact Hp|]. split; [exact Hrun|].
  exact (proj1 (proj2
           (proj1 (parse_alternative_first_applicable string plain_exec (dispatch 2)
                     Q_ONCE [lit "a"] three_branches (start "ab"))
              [branch_xy] branch_ax [branch_ab] eq_refl Hpre Hp))
           _ Hrun).
Defined.

(** One or more "a": on "b" the mismatch is reported; on "aab" two further
    calls follow the first and the second of them stops the loop. *)
Lemma plus_driver_witness :
  quant plus_seq_a = Q_PLUS /\
  (exists s1,
      parse_sequence (dispatch 1) plus_seq_a (start "b") = Done s1 /\
      applied s1 = 0 /\
      parse_quant_match plain_exec 0 (parse_sequence (dispatch 1)) plus_seq_a
        (start "b")
      = Done (set_applied 1
                (grammar_error "input" 1 "match did not apply" [] s1))) /\
  (exists s1 s',
      parse_sequence (dispatch 1) plus_seq_a (start "aab") = Done s1 /\
      applied s1 <> 0 /\
      repeats (parse_sequence (dispatch 1)) plus_seq_a 2 s1 s' /\
      pos s' = 2 /\
      parse_quant_match plain_exec 2 (parse_sequence (dispatch 1)) plus_seq_a
        (start "aab")
      = Done (set_applied 1 s')).
Proof.
  split; [reflexivity|]. split.
  - eexists. split; [vm_compute; reflexivity|]. split; [reflexivity|].
    apply (proj1 (proj2 (proj2
             (plus_driver string plain_exec 0 (parse_sequence (dispatch 1)) plus_seq_a
                (start "b") eq_refl)))); reflexivity.
  - assert (Hrep : repeats (parse_sequence (dispatch 1)) plus_seq_a 2
                     (set_applied 1 (set_pos 1 (start "aab")))
                     (set_applied 0 (set_pos 2 (start "aab")))).
    { apply repeats_again with (s1 := set_applied 1 (set_pos 2 (start "aab")));
        [discriminate | vm_compute; reflexivity |].
      apply repeats_again with (s1 := set_applied 0 (set_pos 2 (start "aab")));
        [discriminate | vm_compute; reflexivity |].
      apply repeats_stop. reflexivity. }
    eexists. eexists. split; [vm_compute; reflexivity|].
    split; [discriminate|]. split; [exact Hrep|]. split; [reflexivity|].
    apply (proj1 (proj2 (proj2 (proj2
             (plus_driver string plain_exec 2 (parse_sequence (dispatch 1)) plus_seq_a
                (start "aab") eq_refl))))
             (set_applied 1 (set_pos 1 (start "aab"))) 2%nat
             (set_applied 0 (set_pos 2 (start "aab"))));
      [vm_compute; reflexivity | discriminate | exact Hrep | apply le_n].
Defined.

(** One or more "a", then "b", on the text "b": the mismatch of the Plus is
    reported and the Sequence goes on to match "b". *)
Lemma plus_mismatch_not_propagated_witness :
  quant plus_seq_a = Q_PLUS /\
  parse_sequence (dispatch 1) plus_seq_a (set_applied 1 (start "b"))
  = Done (set_applied 0 (start "b")) /\
  dispatch 3 plus_a_then_b (start "b")
  = Done (set_applied 1
            (set_pos 1
               (grammar_error "input" 1 "match did not apply" [] (start "b")))).
Proof.
  split; [reflexivity|].
  assert (Hf : parse_sequence (dispatch 1) plus_seq_a (set_applied 1 (start "b"))
               = Done (set_applied 0 (start "b"))) by (vm_compute; reflexivity).
  split; [exact Hf|].
  change (dispatch 3 plus_a_then_b (start "b"))
    with (parse_sequence (dispatch 2)
            (Match Q_ONCE [] (SEQUENCE [plus_seq_a; once (LITERAL (lit "b"))]))
            (start "b")).
  rewrite (proj2 (proj2 (proj2
             (plus_mismatch_not_propagated string plain_exec 1
                (parse_sequence (dispatch 1)) plus_seq_a
                (set_applied 1 (start "b")) (set_applied 0 (start "b"))
                eq_refl Hf eq_refl)))
             (dispatch 2) Q_ONCE [] [once (LITERAL (lit "b"))] (start "b")
             eq_refl eq_refl).
  vm_compute. reflexivity.
Defined.

(** The literal "abc" on "abcdef" and on "xyz". *)
Lemma parse_match_literal_witness :
  0 <= fst (lex plain_exec (lit "abc") (start "abcdef")) /\
  fst (lex plain_exec (lit "abc") (start "xyz")) < 0 /\
  (exists st',
      dispatch 1 (once (LITERAL (lit "abc"))) (start "abcdef") = Done st' /\
      pos st' = 0 + 3 /\ applied st' = 1) /\
  (exists st',
      dispatch 1 (once (LITERAL (lit "abc"))) (start "xyz") = Done st' /\
      applied st' = 0 /\ pos st' = 0 /\ lineno st' = 1).
Proof.
  assert (Hhit : 0 <= fst (lex plain_exec (lit "abc") (start "abcdef")))
    by (vm_compute; discriminate).
  assert (Hmiss : fst (lex plain_exec (lit "abc") (start "xyz")) < 0)
    by reflexivity.
  split; [exact Hhit|]. split; [exact Hmiss|]. split.
  - destruct (parse_match_literal string plain_exec no_fields 0 no_rules Q_ONCE []
                (lit "abc") (start "abcdef")) as (st' & Hrun & Hyes & _).
    exists st'. split; [exact Hrun|]. exact (Hyes Hhit).
  - destruct (parse_match_literal string plain_exec no_fields 0 no_rules Q_ONCE []
                (lit "abc") (start "xyz")) as (st' & Hrun & _ & Hno).
    exists st'. split; [exact Hrun|]. exact (Hno Hmiss).
Defined.

(** C5 as the specification words it fails on a literal that matches the
    empty text: on the text "b" the empty pattern matches at the cursor
    ([pcre_exec] answers 1 and [lex] the length 0, not the no-match value)
    and yet the lookahead predicate answers 0. *)
Lemma applies_empty_match_counterexample :
  rc (plain_exec "" "b" 1 0) = 1 /\
  fst (lex plain_exec (lit "") (start "b")) = 0 /\
  fst (applies plain_exec empty_first (start "b")) = 0 /\
  ~ applies_as_specified plain_exec empty_first (start "b").
Proof.
  split; [reflexivity|]. split; [reflexivity|]. split; [reflexivity|].
  intros [_ H].
  assert (E : fst (applies plain_exec empty_first (start "b")) = 1).
  { apply H. exists (lit ""). split; [now left|]. vm_compute. discriminate. }
  discriminate E.
Qed.

(** The first-set "x", "a", "ab" on "ab" stops at "a"; the first-set of the
    empty pattern on "b" gives 0. *)
Lemma applies_first_nonempty_match_witness :
  first first_x_a_ab = [lit "x"] ++ lit "a" :: [lit "ab"] /\
  (forall l', In l' [lit "x"] -> fst (lex plain_exec l' (start "ab")) <= 0) /\
  0 < fst (lex plain_exec (lit "a") (start "ab")) /\
  applies plain_exec first_x_a_ab (start "ab")
  = (1, lex_all plain_exec [lit "x"; lit "a"] (start "ab")) /\
  (forall l, In l (first empty_first) ->
             fst (lex plain_exec l (start "b")) <= 0) /\
  applies plain_exec empty_first (start "b")
  = (0, lex_all plain_exec (first empty_first) (start "b")).
Proof.
  assert (Hpre : forall l', In l' [lit "x"] ->
                            fst (lex plain_exec l' (start "ab")) <= 0).
  { intros l' [<- | []]. vm_compute. discriminate. }
  assert (Hl : 0 < fst (lex plain_exec (lit "a") (start "ab"))) by reflexivity.
  assert (Hall : forall l, In l (first empty_first) ->
                           fst (lex plain_exec l (start "b")) <= 0).
  { intros l [<- | []]. vm_compute. discriminate. }
  split; [reflexivity|]. split; [exact Hpre|]. split; [exact Hl|]. split.
  - exact (proj1 (applies_first_nonempty_match string plain_exec first_x_a_ab
                    (start "ab"))
             [lit "x"] (lit "a") [lit "ab"] eq_refl Hpre Hl).
  - split; [exact Hall|].
    exact (proj1 (proj2 (applies_first_nonempty_match string plain_exec empty_first
                           (start "b"))) Hall).
Defined.

(** ** The further laws on the examples *)

Lemma plain_exec_anchored pat subject len off :
  1 <= rc (plain_exec pat subject len off) ->
  m0 (plain_exec pat subject len off) = off.
Proof.
  unfold plain_exec.
  destruct ((0 <=? off) && (off + Z.of_nat (String.length pat) <=? len)
            && String.eqb _ pat)%bool; simpl; [reflexivity | lia].
Qed.

(** The optional "a" on "b" and on "ab". *)
Lemma maybe_driver_witness :
  quant maybe_seq_a = Q_MAYBE /\
  fst (applies plain_exec maybe_seq_a (start "b")) = 0 /\
  parse_quant_match plain_exec 0 (parse_sequence (dispatch 1)) maybe_seq_a
    (start "b")
  = Done (set_applied 1 (start "b")) /\
  fst (applies plain_exec maybe_seq_a (start "ab")) <> 0 /\
  parse_quant_match plain_exec 0 (parse_sequence (dispatch 1)) maybe_seq_a
    (start "ab")
  = Done (set_applied 1 (set_pos 1 (start "ab"))).
Proof.
  assert (H0 : fst (applies plain_exec maybe_seq_a (start "b")) = 0)
    by reflexivity.
  assert (H1 : fst (applies plain_exec maybe_seq_a (start "ab")) <> 0)
    by (vm_compute; discriminate).
  split; [reflexivity|]. split; [exact H0|]. split.
  - exact (proj1 (proj1 (maybe_driver string plain_exec 0
                           (parse_sequence (dispatch 1)) maybe_seq_a
                           (start "b") eq_refl) H0)).
  - split; [exact H1|].
    rewrite (proj1 (proj2 (maybe_driver string plain_exec 0
                             (parse_sequence (dispatch 1)) maybe_seq_a
                             (start "ab") eq_refl)) H1).
    vm_compute. reflexivity.
Defined.

(** The sequence of "a" and "x" on "ab" stops at "x", the "a" consumed. *)
Lemma parse_sequence_stops_at_first_failure_witness :
  all_apply (dispatch 1) [once (LITERAL (lit "a"))]
    (set_applied 1 (start "ab")) (set_applied 1 (set_pos 1 (start "ab"))) /\
  dispatch 1 (once (LITERAL (lit "x"))) (set_applied 1 (set_pos 1 (start "ab")))
  = Done (set_applied 0 (set_pos 1 (start "ab"))) /\
  parse_sequence (dispatch 1) branch_ax (start "ab")
  = Done (set_applied 0 (set_pos 1 (start "ab"))).
Proof.
  assert (Hall : all_apply (dispatch 1) [once (LITERAL (lit "a"))]
                   (set_applied 1 (start "ab"))
                   (set_applied 1 (set_pos 1 (start "ab")))).
  { apply all_apply_cons with (s1 := set_applied 1 (set_pos 1 (start "ab")));
      [vm_compute; reflexivity | discriminate | apply all_apply_nil]. }
  assert (Hx : dispatch 1 (once (LITERAL (lit "x")))
                 (set_applied 1 (set_pos 1 (start "ab")))
               = Done (set_applied 0 (set_pos 1 (start "ab"))))
    by (vm_compute; reflexivity).
  split; [exact Hall|]. split; [exact Hx|].
  exact (proj1 (proj2 (parse_sequence_stops_at_first_failure string
                         (dispatch 1) Q_ONCE [lit "a"]
                         [once (LITERAL (lit "a")); once (LITERAL (lit "x"))]
                         (start "ab")))
           [once (LITERAL (lit "a"))] (once (LITERAL (lit "x"))) []
           _ _ eq_refl Hall Hx eq_refl).
Defined.

(** One or more "a" on "aab": the way the driver returned. *)
Lemma plus_driver_complete_witness :
  parse_quant_match plain_exec 2 (parse_sequence (dispatch 1)) plus_seq_a
    (start "aab")
  = Done (set_applied 1 (set_pos 2 (start "aab"))) /\
  exists s1,
    parse_sequence (dispatch 1) plus_seq_a (start "aab") = Done s1 /\
    ((applied s1 = 0 /\
      set_applied 1 (set_pos 2 (start "aab"))
      = set_applied 1
          (grammar_error (filename s1) (lineno s1) "match did not apply" [] s1)) \/
     (applied s1 <> 0 /\
      exists n s', (n <= 2)%nat /\
                   repeats (parse_sequence (dispatch 1)) plus_seq_a n s1 s' /\
                   set_applied 1 (set_pos 2 (start "aab")) = set_applied 1 s')).
Proof.
  assert (Hrun : parse_quant_match plain_exec 2 (parse_sequence (dispatch 1))
                   plus_seq_a (start "aab")
                 = Done (set_applied 1 (set_pos 2 (start "aab"))))
    by (vm_compute; reflexivity).
  split; [exact Hrun|].
  exact (plus_driver_complete string plain_exec 2 (parse_sequence (dispatch 1))
           plus_seq_a (start "aab") _ eq_refl Hrun).
Defined.

(** Zero or more "a" on "aaab": the way the driver returned. *)
Lemma star_driver_complete_witness :
  parse_quant_match plain_exec 3 (parse_sequence (dispatch 1)) star_seq_a
    (start "aaab")
  = Done (set_applied 1 (set_pos 3 (start "aaab"))) /\
  fst (applies plain_exec star_seq_a (set_applied 1 (set_pos 3 (start "aaab"))))
  = 0.
Proof.
  assert (Hrun : parse_quant_match plain_exec 3 (parse_sequence (dispatch 1))
                   star_seq_a (start "aaab")
                 = Done (set_applied 1 (set_pos 3 (start "aaab"))))
    by (vm_compute; reflexivity).
  split; [exact Hrun|].
  exact (proj2 (star_driver_complete string plain_exec 3
                  (parse_sequence (dispatch 1)) star_seq_a (start "aaab") _
                  eq_refl Hrun)).
Defined.

(** One or more of the empty Sequence never returns. *)
Lemma plus_never_returns_witness :
  quant plus_empty = Q_PLUS /\
  (forall fuel s,
      exists s', parse_sequence (dispatch fuel) plus_empty s = Done s' /\
                 applied s' <> 0) /\
  (forall fuel, dispatch fuel plus_empty (start "a") = OutOfFuel).
Proof.
  assert (Hf : forall fuel s,
             exists s', parse_sequence (dispatch fuel) plus_empty s = Done s' /\
                        applied s' <> 0).
  { intros fuel s. exists (set_applied 1 s). split; [reflexivity | discriminate]. }
  split; [reflexivity|]. split; [exact Hf|].
  intros [|fuel]; [reflexivity|].
  exact (plus_never_returns string plain_exec fuel
           (parse_sequence (dispatch fuel)) plus_empty (start "a")
           eq_refl (Hf fuel)).
Defined.

(** Zero or more of the empty Sequence, at an "a" that its first-set
    announces, never returns. *)
Lemma star_never_returns_witness :
  quant star_idle = Q_STAR /\
  fst (applies plain_exec star_idle (start "a")) <> 0 /\
  (forall fuel, dispatch fuel star_idle (start "a") = OutOfFuel).
Proof.
  assert (Ha : fst (applies plain_exec star_idle (start "a")) <> 0)
    by (vm_compute; discriminate).
  split; [reflexivity|]. split; [exact Ha|].
  intros [|fuel]; [reflexivity|].
  apply (star_never_returns string plain_exec fuel
           (parse_sequence (dispatch fuel)) star_idle (start "a") eq_refl Ha).
  intros s Ht Hp. exists (set_applied 1 s).
  split; [reflexivity|]. split; assumption.
Defined.

(** The rule that refers to itself. *)
Lemma self_reference_never_returns_witness :
  nth_error (rules loop_grammar) 0 = Some {| name := "loop";
                                              rule_matches := self_reference |} /\
  (forall fuel,
      parse_match plain_exec no_fields fuel loop_grammar self_reference
        (start "a")
      = OutOfFuel).
Proof.
  split; [reflexivity|]. intros fuel.
  exact (self_reference_never_returns string plain_exec no_fields loop_grammar
           O _ [] fuel (start "a") eq_refl eq_refl).
Defined.

(** The sequence of "ab\n" and "cd" on "ab\ncd", traced. *)
Lemma dispatch_moves_forward_witness :
  exists st',
    dispatch 2 (once (SEQUENCE [once (LITERAL (lit ("ab" ++ nl)%string));
                                once (LITERAL (lit "cd"))]))
      (traced two_lines) = Done st' /\
    pos st' = 5 /\ lineno st' = 2 /\
    0 <= pos (traced two_lines) /\
    INT_MIN <= lineno (traced two_lines) /\
    lineno (traced two_lines) + newlines (consumed (traced two_lines) st')
    <= INT_MAX /\
    (filename st' = filename (traced two_lines) /\
     text st' = text (traced two_lines) /\
     flags st' = flags (traced two_lines) /\
     log st' = log (traced two_lines) /\
     pos (traced two_lines) <= pos st' /\
     lineno (traced two_lines) <= lineno st').
Proof.
  eexists. split; [vm_compute; reflexivity|].
  split; [reflexivity|]. split; [reflexivity|].
  split; [vm_compute; discriminate|]. split; [vm_compute; discriminate|].
  split; [vm_compute; discriminate|].
  lazymatch goal with
  | |- filename ?s = _ /\ _ =>
      pose proof (dispatch_moves_forward string plain_exec no_fields 2 no_rules
                    (once (SEQUENCE [once (LITERAL (lit ("ab" ++ nl)%string));
                                     once (LITERAL (lit "cd"))]))
                    (traced two_lines) s) as H
  end.
  destruct H as (H1 & H2 & H3 & H4 & H5 & H6); [vm_compute; reflexivity|].
  split; [exact H1|]. split; [exact H2|]. split; [exact H3|].
  split; [exact H4|]. split; [exact H5|].
  apply H6; vm_compute; discriminate.
Defined.

(** The line number after the grammar of two lines has read "ab\ncd". *)
Lemma line_number_follows_cursor_witness :
  Z.of_nat (String.length two_lines) < INT_MAX /\
  exists st',
    parse_root plain_exec no_fields 2 two_lines_grammar
      (start_state "input" two_lines None PF_NONE) = Done st' /\
    lineno st' = 1 + newlines (substring 0 (Z.to_nat (pos st')) two_lines) /\
    lineno st' = 2.
Proof.
  assert (Hlen : Z.of_nat (String.length two_lines) < INT_MAX) by reflexivity.
  split; [exact Hlen|].
  eexists. split; [vm_compute; reflexivity|]. split; [|reflexivity].
  apply (proj2 (line_number_follows_cursor string plain_exec no_fields 2
                  two_lines_grammar) "input" two_lines None PF_NONE);
    [vm_compute; reflexivity | exact Hlen].
Defined.

(** Zero or more "a" on "aaab" stays inside the four characters. *)
Lemma cursor_stays_in_text_witness :
  (forall pat subject len off,
      1 <= rc (plain_exec pat subject len off) ->
      off <= m0 (plain_exec pat subject len off) /\
      m1 (plain_exec pat subject len off) <= len) /\
  0 <= pos (start "aaab") <= strlen (text (start "aaab")) /\
  exists st',
    dispatch 4 star_seq_a (start "aaab") = Done st' /\
    pos st' = 3 /\
    (text st' = text (start "aaab") /\ 0 <= pos st' <= strlen (text st')).
Proof.
  assert (Hb : 0 <= pos (start "aaab") <= strlen (text (start "aaab")))
    by (vm_compute; split; discriminate).
  split; [exact plain_exec_bounds|]. split; [exact Hb|].
  eexists. split; [vm_compute; reflexivity|]. split; [reflexivity|].
  apply (cursor_stays_in_text string plain_exec no_fields plain_exec_bounds
           4 no_rules star_seq_a (start "aaab"));
    [vm_compute; reflexivity | exact Hb].
Defined.

(** One or more "a", then "b", on "b", without flags: one diagnostic; and
    the same grammar as a whole parse of "bc", which fails at the "c". *)
Lemma no_trace_without_flags_witness :
  flags (start "b") = PF_NONE /\
  (exists st',
      dispatch 3 plus_a_then_b (start "b") = Done st' /\
      pos st' = 1 /\
      exists evs,
        out st' = evs ++ out (start "b") /\
        Forall (fun o => is_diagnostic o = true) evs) /\
  (exists st',
      parse plain_exec no_fields 3
        {| rules := [ {| name := "ab"; rule_matches := plus_a_then_b |} ] |}
        "input" "bc" None 15 = Done st' /\
      exists evs,
        Forall (fun o => is_diagnostic o = true) evs /\
        (out st' = evs ++ [Flags PF_NONE] \/
         out st' = ParseFailed :: evs ++ [Flags PF_NONE])).
Proof.
  split; [reflexivity|]. split.
  - eexists. split; [vm_compute; reflexivity|]. split; [reflexivity|].
    apply (proj1 (no_trace_without_flags string plain_exec no_fields 3 no_rules)
             plus_a_then_b (start "b"));
      [vm_compute; reflexivity | reflexivity].
  - eexists. split; [vm_compute; reflexivity|].
    apply (proj2 (no_trace_without_flags string plain_exec no_fields 3
                    {| rules := [ {| name := "ab";
                                     rule_matches := plus_a_then_b |} ] |})
             "input" "bc" None 15);
      [vm_compute; reflexivity | now left].
Defined.

(** The engine for plain patterns is anchored; a traced run of the
    sequence of "a" and "x" on "ab". *)
Lemma skipped_never_reported_witness :
  (forall pat subject len off,
      1 <= rc (plain_exec pat subject len off) ->
      m0 (plain_exec pat subject len off) = off) /\
  exists st',
    dispatch 2 branch_ax (traced "ab") = Done st' /\
    exists evs, out st' = evs ++ out (traced "ab") /\
                Forall (fun o => is_skipped o = false) evs.
Proof.
  split; [exact plain_exec_anchored|].
  eexists. split; [vm_compute; reflexivity|].
  apply (skipped_never_reported string plain_exec no_fields plain_exec_anchored
           2 no_rules branch_ax (traced "ab")).
  vm_compute. reflexivity.
Defined.

(** The literal "ab\n" on "ab\ncd", traced. *)
Lemma token_trace_is_consumed_text_witness :
  0 <= fst (lex plain_exec (lit ("ab" ++ nl)%string) (traced two_lines)) /\
  0 <= pos (traced two_lines) /\
  flag_set (traced two_lines) PF_TOKEN = true /\
  In (TraceT string stderr "literal" ("ab" ++ nl)%string)
     (out (parse_literal plain_exec (lit ("ab" ++ nl)%string) (traced two_lines))).
Proof.
  assert (H1 : 0 <= fst (lex plain_exec (lit ("ab" ++ nl)%string)
                           (traced two_lines)))
    by (vm_compute; discriminate).
  assert (H2 : 0 <= pos (traced two_lines)) by (vm_compute; discriminate).
  assert (H3 : flag_set (traced two_lines) PF_TOKEN = true) by reflexivity.
  split; [exact H1|]. split; [exact H2|]. split; [exact H3|].
  exact (token_trace_is_consumed_text string plain_exec
           (lit ("ab" ++ nl)%string) (traced two_lines) H1 H2 H3).
Defined.

(** The three branches on "ab": the flag is 1 though the chosen branch
    left it at 0. *)
Lemma parse_alternative_complete_witness :
  exists st',
    parse_alternative plain_exec (dispatch 2)
      (Match Q_ONCE [lit "a"] (ALTERNATIVE three_branches)) (start "ab")
    = Done st' /\
    ((applied st' = 0 /\
      (forall b, In b three_branches ->
                 fst (applies plain_exec b (start "ab")) = 0) /\
      pos st' = pos (start "ab") /\ lineno st' = lineno (start "ab")) \/
     (applied st' = 1 /\
      exists pre p post s2,
        three_branches = pre ++ p :: post /\
        (forall b, In b pre -> fst (applies plain_exec b (start "ab")) = 0) /\
        fst (applies plain_exec p (start "ab")) <> 0 /\
        dispatch 2 p (applies_all plain_exec (pre ++ [p])
                        (set_applied 0 (start "ab"))) = Done s2 /\
        st' = set_applied 1 s2)).
Proof.
  eexists. split; [vm_compute; reflexivity|].
  apply (parse_alternative_complete string plain_exec (dispatch 2) Q_ONCE
           [lit "a"] three_branches (start "ab")).
  vm_compute. reflexivity.
Defined.
